(** * Base36 text codec for 128-bit SCRU128 identifiers

    A shallow embedding of the two C reference implementations kept in the
    repository:

    - [Naive]: [base36_128.c], the one-digit-at-a-time [convert_base] and the
      codec printing with the upper-case [DIGITS] table;
    - [Refined]: the later revision of the same file, whose default build
      batches input digits into a 64-bit word and leaves the inner loop early,
      and whose [DIGITS] table is lower-case.

    Modelling conventions.
    - C [int] values are [Z]; loop trip counts are taken with [Z.to_nat], so a
      negative length runs a loop zero times, as the C comparisons do.
    - [uint8_t], [uint_fast16_t] and [uint64_t] values are [Z] with the
      conversion to the type written as [wrap bits].  [uint_fast16_t] is given
      the narrowest width the C standard permits, 16 bits.
    - Arrays are [list Z]; [a[i]] is [nth i a 0] and [a[i] = v] is
      [<[i:=v]> a].  Every index used by the code is in range when the
      buffers have the lengths the functions document.
    - A C string is a [string] holding the characters before its terminator;
      [text[i]] is character [i], and NUL at the end of the string.  [decode]
      returns at the first NUL among the first 25 characters, so it never
      reads past the terminator ([decode_ignores_after_terminator]).
    - Every value assigned to [carry] is appended, before its conversion to
      the type of [carry], to a trace carried next to the state.
    - Results are in [option]: [None] is a loop of the model that did not
      finish within its bound, or a failed [assert]. *)

From Stdlib Require Import ZArith Lia String Ascii.
From stdpp Require Import base list numbers.
Local Open Scope Z_scope.

(** ** Machine integers *)

Definition wrap (bits x : Z) : Z := x mod 2 ^ bits.

Definition UINT64_MAX : Z := 2 ^ 64 - 1.
Definition UINT_FAST16_BITS : Z := 16.

(** ** Numerals: digit lists, most significant digit first *)

Definition value (base : Z) (ds : list Z) : Z :=
  fold_left (λ acc d, acc * base + d) ds 0.

Definition is_digit (base d : Z) : Prop := 0 ≤ d < base.

Fixpoint digits_le (base : Z) (n : nat) (v : Z) : list Z :=
  match n with
  | O => []
  | S n' => v mod base :: digits_le base n' (v / base)
  end.

(** The [n]-digit numeral of [v] in [base], zero-padded on the left. *)
Definition digits_of (base : Z) (n : nat) (v : Z) : list Z :=
  rev (digits_le base n v).

(** ** Code shared by the two files *)

(** [for (int i = 0; i < out_len; i++) { out[i] = 0; }] *)
Fixpoint zero_out (n i : nat) (out : list Z) : list Z :=
  match n with
  | O => out
  | S n' => zero_out n' (S i) (<[i:=0]> out)
  end.

(** Body of the inner loop at index [j], with [carry] of width [bits]:
<<
      carry += out[j] * mult;
      out[j] = carry % out_base;
      carry = carry / out_base;
>> *)
Definition inner_step (bits mult out_base : Z) (j : nat)
    (out : list Z) (carry : Z) (tr : list Z) : list Z * Z * list Z :=
  let sum := carry + nth j out 0 * mult in
  let carry1 := wrap bits sum in
  let out' := <[j:=wrap 8 (carry1 mod out_base)]> out in
  let quot := carry1 / out_base in
  (out', wrap bits quot, tr ++ [sum; quot]).

(** ** The text codec

    [encode] and [decode] read the same in the two files but for the letter
    case of [DIGITS]; they are given over the [convert_base] and the [DIGITS]
    of a file, and instantiated in [Naive] and [Refined] below. *)

Definition code_of (c : ascii) : Z := Z.of_N (N_of_ascii c).

(** [text[i]] as [unsigned char]. *)
Definition char_at (text : string) (i : nat) : Z :=
  match String.get i text with
  | Some c => code_of c
  | None => 0
  end.

Definition DECODE_MAP : list Z :=
  [ 0xff; 0xff; 0xff; 0xff; 0xff; 0xff; 0xff; 0xff; 0xff; 0xff; 0xff; 0xff;
    0xff; 0xff; 0xff; 0xff; 0xff; 0xff; 0xff; 0xff; 0xff; 0xff; 0xff; 0xff;
    0xff; 0xff; 0xff; 0xff; 0xff; 0xff; 0xff; 0xff; 0xff; 0xff; 0xff; 0xff;
    0xff; 0xff; 0xff; 0xff; 0xff; 0xff; 0xff; 0xff; 0xff; 0xff; 0xff; 0xff;
    0x00; 0x01; 0x02; 0x03; 0x04; 0x05; 0x06; 0x07; 0x08; 0x09; 0xff; 0xff;
    0xff; 0xff; 0xff; 0xff; 0xff; 0x0a; 0x0b; 0x0c; 0x0d; 0x0e; 0x0f; 0x10;
    0x11; 0x12; 0x13; 0x14; 0x15; 0x16; 0x17; 0x18; 0x19; 0x1a; 0x1b; 0x1c;
    0x1d; 0x1e; 0x1f; 0x20; 0x21; 0x22; 0x23; 0xff; 0xff; 0xff; 0xff; 0xff;
    0xff; 0x0a; 0x0b; 0x0c; 0x0d; 0x0e; 0x0f; 0x10; 0x11; 0x12; 0x13; 0x14;
    0x15; 0x16; 0x17; 0x18; 0x19; 0x1a; 0x1b; 0x1c; 0x1d; 0x1e; 0x1f; 0x20;
    0x21; 0x22; 0x23; 0xff; 0xff; 0xff; 0xff; 0xff ].

Section Codec.

Variable convert_base :
  list Z → Z → Z → list Z → Z → Z → option (Z * list Z).
Variable DIGITS : string.

(** [DIGITS[d]] *)
Definition digit_char (d : Z) : ascii :=
  match String.get (Z.to_nat d) DIGITS with
  | Some c => c
  | None => zero
  end.

(** [void encode(const uint8_t *bytes, char *out)]: the 25 characters written
    before the terminator; [None] when [assert(err == 0)] fails.  The local
    array [digit_values] is not initialised; it starts here as zeros, and
    [encode_never_fails] holds for any content. *)
Definition encode (bytes : list Z) : option string :=
  match convert_base bytes 16 256 (replicate 25 0) 25 36 with
  | None => None
  | Some (err, digit_values) =>
      if err =? 0
      then Some (string_of_list_ascii
                   (map (λ i, digit_char (nth i digit_values 0)) (seq 0 25)))
      else None
  end.

(** The first loop of [decode], with [n] iterations left; [None] is the
    [return -1] on an invalid digit character. *)
Fixpoint read_digits (text : string) (n i : nat) (digit_values : list Z)
    : option (list Z) :=
  match n with
  | O => Some digit_values
  | S n' =>
      let code := char_at text i in
      if (127 <? code) || (nth (Z.to_nat code) DECODE_MAP 0 =? 0xff)
      then None
      else read_digits text n' (S i)
             (<[i:=nth (Z.to_nat code) DECODE_MAP 0]> digit_values)
  end.

(** [int decode(const char *text, uint8_t *out)]: status and final [out].
    Each of the 25 entries of [digit_values] is written before it is read. *)
Definition decode (text : string) (out : list Z) : option (Z * list Z) :=
  match read_digits text 25 0 (replicate 25 0) with
  | None => Some (-1, out)
  | Some digit_values =>
      if negb (char_at text 25 =? 0) then Some (-1, out)
      else
        match convert_base digit_values 25 36 out 16 256 with
        | None => None
        | Some (err, out') =>
            if negb (err =? 0) then Some (-1, out') else Some (0, out')
        end
  end.

End Codec.

(** ** [base36_128.c]

    Its [convert_base] is also, statement for statement, the
    [USE_NAIVE_CODE] build of the revised file. *)

Module Naive.

(** [for (int j = out_len - 1; j >= 0; j--) { ... }]; the counter [j] of the
    model is one more than the index of the C loop. *)
Fixpoint inner_loop (in_base out_base : Z) (j : nat)
    (out : list Z) (carry : Z) (tr : list Z) : list Z * Z * list Z :=
  match j with
  | O => (out, carry, tr)
  | S j' =>
      let '(out', carry', tr') :=
        inner_step UINT_FAST16_BITS in_base out_base j' out carry tr in
      inner_loop in_base out_base j' out' carry' tr'
  end.

(** [for (int i = 0; i < in_len; i++) { ... }], with [n] iterations left. *)
Fixpoint outer_loop (in_ : list Z) (in_base : Z) (out_len : nat) (out_base : Z)
    (n i : nat) (out : list Z) (tr : list Z) : Z * list Z * list Z :=
  match n with
  | O => (0, out, tr)
  | S n' =>
      let d := nth i in_ 0 in
      let '(out', carry, tr') :=
        inner_loop in_base out_base out_len out
          (wrap UINT_FAST16_BITS d) (tr ++ [d]) in
      if carry =? 0
      then outer_loop in_ in_base out_len out_base n' (S i) out' tr'
      else (-1, out', tr')
  end.

(** [convert_base] with the trace of [carry]: status, [out], trace. *)
Definition convert_base_run (in_ : list Z) (in_len in_base : Z)
    (out : list Z) (out_len out_base : Z) : Z * list Z * list Z :=
  let out0 := zero_out (Z.to_nat out_len) 0 out in
  outer_loop in_ in_base (Z.to_nat out_len) out_base (Z.to_nat in_len) 0%nat
    out0 [].

Definition convert_base (in_ : list Z) (in_len in_base : Z)
    (out : list Z) (out_len out_base : Z) : option (Z * list Z) :=
  let '(err, out', _) :=
    convert_base_run in_ in_len in_base out out_len out_base in
  Some (err, out').

Definition DIGITS : string := "0123456789ABCDEFGHIJKLMNOPQRSTUVWXYZ".
Definition encode : list Z → option string := encode convert_base DIGITS.
Definition decode : string → list Z → option (Z * list Z) :=
  decode convert_base.

End Naive.

(** ** The revised file, default build (without [USE_NAIVE_CODE]) *)

Module Refined.

(** [[
  while (word_base <= UINT64_MAX / ((uint64_t)in_base * out_base)) {
    word_len++;
    word_base *= in_base;
  }
]] *)
Fixpoint word_loop (fuel : nat) (in_base out_base word_len word_base : Z)
    : option (Z * Z) :=
  match fuel with
  | O => None
  | S fuel' =>
      if word_base <=? UINT64_MAX / wrap 64 (wrap 64 in_base * wrap 64 out_base)
      then word_loop fuel' in_base out_base (word_len + 1)
             (wrap 64 (word_base * wrap 64 in_base))
      else Some (word_len, word_base)
  end.

(** [for (int j = ...; j < i + word_len; j++) { carry = carry * in_base + in[j]; }]
    with [n] iterations left. *)
Fixpoint read_word (in_ : list Z) (in_base : Z) (n j : nat)
    (carry : Z) (tr : list Z) : Z * list Z :=
  match n with
  | O => (carry, tr)
  | S n' =>
      let x := carry * wrap 64 in_base + nth j in_ 0 in
      read_word in_ in_base n' (S j) (wrap 64 x) (tr ++ [x])
  end.

(** The inner loop with its early exit:
<<
      if (carry == 0 && j <= out_used) { out_used = j; break; }
>> *)
Fixpoint inner_loop (word_base out_base : Z) (j : nat)
    (out : list Z) (carry out_used : Z) (tr : list Z)
    : list Z * Z * Z * list Z :=
  match j with
  | O => (out, carry, out_used, tr)
  | S j' =>
      let '(out', carry', tr') :=
        inner_step 64 word_base out_base j' out carry tr in
      if (carry' =? 0) && (Z.of_nat j' <=? out_used)
      then (out', carry', Z.of_nat j', tr')
      else inner_loop word_base out_base j' out' carry' out_used tr'
  end.

(** [for (; i < in_len; i += word_len) { ... }] *)
Fixpoint outer_loop (fuel : nat) (in_ : list Z) (in_len in_base : Z)
    (out_len : nat) (out_base word_len word_base : Z)
    (i : Z) (out : list Z) (out_used : Z) (tr : list Z)
    : option (Z * list Z * list Z) :=
  match fuel with
  | O => None
  | S fuel' =>
      if i <? in_len then
        let j0 := if i <? 0 then 0 else i in
        let '(carry, tr1) :=
          read_word in_ in_base (Z.to_nat (i + word_len - j0)) (Z.to_nat j0)
            0 tr in
        let '(out', carry', out_used', tr2) :=
          inner_loop word_base out_base out_len out carry out_used tr1 in
        if carry' =? 0
        then outer_loop fuel' in_ in_len in_base out_len out_base
               word_len word_base (i + word_len) out' out_used' tr2
        else Some (-1, out', tr2)
      else Some (0, out, tr)
  end.

(** The word selected by [convert_base]: [word_len] and [word_base]. *)
Definition select_word (in_base out_base : Z) : option (Z * Z) :=
  word_loop 64 in_base out_base 1 (wrap 64 in_base).

(** [convert_base] (default build) with the trace of [carry]. *)
Definition convert_base_run (in_ : list Z) (in_len in_base : Z)
    (out : list Z) (out_len out_base : Z) : option (Z * list Z * list Z) :=
  let out0 := zero_out (Z.to_nat out_len) 0 out in
  match select_word in_base out_base with
  | None => None
  | Some (word_len, word_base) =>
      let out_used := out_len - 1 in
      let i := Z.rem in_len word_len in
      let i := if 0 <? i then i - word_len else i in
      outer_loop (S (Z.to_nat in_len)) in_ in_len in_base (Z.to_nat out_len)
        out_base word_len word_base i out0 out_used []
  end.

Definition convert_base (in_ : list Z) (in_len in_base : Z)
    (out : list Z) (out_len out_base : Z) : option (Z * list Z) :=
  match convert_base_run in_ in_len in_base out out_len out_base with
  | Some (err, out', _) => Some (err, out')
  | None => None
  end.

Definition DIGITS : string := "0123456789abcdefghijklmnopqrstuvwxyz".
Definition encode : list Z → option string := encode convert_base DIGITS.
Definition decode : string → list Z → option (Z * list Z) :=
  decode convert_base.

End Refined.

(** * Vocabulary of the properties *)

(** ** Conversions *)

(** The precondition of [convert_base], with the lengths of the buffers. *)
Definition precondition (in_ : list Z) (in_len in_base : Z)
    (out : list Z) (out_len out_base : Z) : Prop :=
  2 ≤ in_base ≤ 256 ∧ 2 ≤ out_base ≤ 256
  ∧ Forall (is_digit in_base) in_
  ∧ Z.of_nat (length in_) = in_len ∧ Z.of_nat (length out) = out_len.

(** Status and output of a conversion: success with the [out_len]-digit
    numeral of the input value when it fits, [-1] when it does not. *)
Definition converted (in_ : list Z) (in_base out_len out_base : Z)
    (err : Z) (out' : list Z) : Prop :=
  length out' = Z.to_nat out_len
  ∧ if value in_base in_ <? out_base ^ out_len
    then err = 0
         ∧ out' = digits_of out_base (Z.to_nat out_len) (value in_base in_)
    else err = -1.

(** What the codec needs of a [convert_base]. *)
Definition conversion_contract
    (cb : list Z → Z → Z → list Z → Z → Z → option (Z * list Z)) : Prop :=
  ∀ in_ in_len in_base out out_len out_base,
    precondition in_ in_len in_base out out_len out_base →
    ∃ err out',
      cb in_ in_len in_base out out_len out_base = Some (err, out')
      ∧ converted in_ in_base out_len out_base err out'.

(** Bound on every value of [carry] in the naive loops. *)
Definition naive_bound (in_base out_base v : Z) : Prop :=
  0 ≤ v ≤ in_base * out_base - 1.

(** Bound on every value of [carry] in the refined loops. *)
Definition refined_bound (out_base word_base v : Z) : Prop :=
  0 ≤ v ≤ word_base * out_base - 1.

(** Digits of [l] at the indices below [used] are still zero. *)
Definition zeros_below (used : Z) (l : list Z) : Prop :=
  ∀ (k : nat) (x : Z), l !! k = Some x → Z.of_nat k < used → x = 0.

(** ** Texts *)

(** Code points of [0-9], [A-Z] and [a-z]. *)
Definition is_base36_code (c : Z) : bool :=
  ((48 <=? c) && (c <=? 57)) || ((65 <=? c) && (c <=? 90))
  || ((97 <=? c) && (c <=? 122)).

(** Digit value of a code point of the alphabet, letters in either case. *)
Definition base36_digit (c : Z) : Z :=
  if c <=? 57 then c - 48 else if c <=? 90 then c - 55 else c - 87.

Definition is_lower_code (c : Z) : bool :=
  ((48 <=? c) && (c <=? 57)) || ((97 <=? c) && (c <=? 122)).

Definition is_upper_code (c : Z) : bool :=
  ((48 <=? c) && (c <=? 57)) || ((65 <=? c) && (c <=? 90)).

(** [text[i]] is rejected by the first loop of [decode]. *)
Definition rejected (code : Z) : bool :=
  (127 <? code) || (nth (Z.to_nat code) DECODE_MAP 0 =? 0xff).

(** A [DIGITS] table is sound when every digit value prints as a character
    that [DECODE_MAP] reads back as that value. *)
Definition digits_table_ok (DIGITS : string) (in_case : Z → bool) : Prop :=
  ∀ d, 0 ≤ d < 36 →
    in_case (code_of (digit_char DIGITS d)) = true
    ∧ is_base36_code (code_of (digit_char DIGITS d)) = true
    ∧ base36_digit (code_of (digit_char DIGITS d)) = d.

(** The first 25 characters are all of the alphabet. *)
Definition all_base36 (text : string) : bool :=
  forallb (λ k, is_base36_code (char_at text k)) (seq 0 25).

(** The digit values of the first 25 characters, and the number they denote
    in base 36. *)
Definition text_digits (text : string) : list Z :=
  map (λ k, base36_digit (char_at text k)) (seq 0 25).

Definition numeral (text : string) : Z := value 36 (text_digits text).

(** The text printed by [encode] with the table [DIGITS]. *)
Definition encoded (DIGITS : string) (bytes : list Z) : string :=
  string_of_list_ascii
    (map (digit_char DIGITS) (digits_of 36 25 (value 256 bytes))).

(** The opposite-case ASCII counterpart of a letter; any other character is
    left as it is. *)
Definition swap_case (c : ascii) : ascii :=
  let n := code_of c in
  if (65 <=? n) && (n <=? 90) then ascii_of_N (Z.to_N (n + 32))
  else if (97 <=? n) && (n <=? 122) then ascii_of_N (Z.to_N (n - 32))
  else c.

Definition to_upper (c : ascii) : ascii :=
  if (97 <=? code_of c) && (code_of c <=? 122) then swap_case c else c.

Definition to_lower (c : ascii) : ascii :=
  if (65 <=? code_of c) && (code_of c <=? 90) then swap_case c else c.

Fixpoint map_string (f : ascii → ascii) (s : string) : string :=
  match s with
  | EmptyString => EmptyString
  | String c s' => String (f c) (map_string f s')
  end.

(** [t] is [s] with some of its letters replaced by their opposite-case
    counterparts. *)
Fixpoint case_variant (s t : string) : Prop :=
  match s, t with
  | EmptyString, EmptyString => True
  | String a s', String b t' => (b = a ∨ b = swap_case a) ∧ case_variant s' t'
  | _, _ => False
  end.

(** Two code points that [decode] cannot tell apart. *)
Definition same_digit (c c' : Z) : Prop :=
  rejected c = rejected c'
  ∧ nth (Z.to_nat c) DECODE_MAP 0 = nth (Z.to_nat c') DECODE_MAP 0
  ∧ (c =? 0) = (c' =? 0).

(** [t] has exactly 25 characters, all of the class [p]. *)
Definition matches_class (p : Z → bool) (t : string) : bool :=
  (String.length t =? 25)%nat && forallb (λ k, p (char_at t k)) (seq 0 25).

Definition max_bytes : list Z := replicate 16 0xff.

Definition sample_bytes : list Z :=
  [ 0x01; 0x7f; 0xee; 0x7f; 0xef; 0x41; 0x7e; 0x2b;
    0x34; 0x32; 0xac; 0x2e; 0xc5; 0x53; 0x68; 0x7c ].

(** A 16-byte array. *)
Definition is_bytes16 (b : list Z) : Prop :=
  length b = 16%nat ∧ Forall (is_digit 256) b.

(** The condition of C4: 25 characters of [0-9A-Za-z], then the terminator,
    and a base-36 value of at most [2^128 - 1]. *)
Definition acceptable (text : string) : bool :=
  all_base36 text && (char_at text 25 =? 0)
  && (numeral text <=? 2 ^ 128 - 1).

(** Success with the 16 bytes of the numeral when the text is acceptable,
    failure otherwise. *)
Definition decodes_iff_acceptable
    (dec : string → list Z → option (Z * list Z))
    (text : string) (out : list Z) : Prop :=
  (acceptable text = true →
   dec text out = Some (0, digits_of 256 16 (numeral text)))
  ∧ (acceptable text = false → ∃ out', dec text out = Some (-1, out')).

(** * Further code of the two files *)

(** ** The illustration of the algorithm in the documentation

    The text kept with [base36_128.c] shows the conversion of an identifier
    to its text as two nested loops, without the check of the carry that
    [convert_base] makes.  [carry] is an [unsigned int] there, given here the
    narrowest width C permits. *)

Definition UINT_BITS : Z := 16.

Module Readme.

(** [for (int j = 24; j >= 0; j--) { ... }]; the counter [j] is one more
    than the index of the C loop. *)
Fixpoint inner_loop (j : nat) (digit_values : list Z) (carry : Z)
    : list Z * Z :=
  match j with
  | O => (digit_values, carry)
  | S j' =>
      let '(digit_values', carry', _) :=
        inner_step UINT_BITS 256 36 j' digit_values carry [] in
      inner_loop j' digit_values' carry'
  end.

(** [for (int i = 0; i < 16; i++) { unsigned int carry = id[i]; ... }],
    with [n] iterations left. *)
Fixpoint outer_loop (id : list Z) (n i : nat) (digit_values : list Z)
    : list Z :=
  match n with
  | O => digit_values
  | S n' =>
      let '(digit_values', _) :=
        inner_loop 25 digit_values (wrap UINT_BITS (nth i id 0)) in
      outer_loop id n' (S i) digit_values'
  end.

Definition digits : string := "0123456789abcdefghijklmnopqrstuvwxyz".

(** The 25 characters of [text] before its terminator, for the identifier
    [id]; [digit_values] starts as [{0}]. *)
Definition text (id : list Z) : string :=
  let digit_values := outer_loop id 16 0 (replicate 25 0) in
  string_of_list_ascii
    (map (λ i, digit_char digits (nth i digit_values 0)) (seq 0 25)).

End Readme.

(** ** The self-tests

    [test_positive_cases], [test_negative_cases] and [main] read the same in
    the two files but for the letter case of the texts of the test vector.
    A result [None] is a failed [assert]. *)

Module SelfTest.

(** [struct TestCase { uint8_t bytes[16]; char text[26]; }]; [text] holds
    the characters before the terminator, the rest of the array being NUL. *)
Record TestCase := { bytes : list Z; text : string }.

Section Harness.

Variable encode : list Z → option string.
Variable decode : string → list Z → option (Z * list Z).

(** Body of the loop of [test_positive_cases] for the entry [e]; the array
    [out_bytes] is not initialised and starts here as zeros. *)
Definition positive_case (e : TestCase) : option unit :=
  match encode (bytes e) with
  | None => None
  | Some out_text =>
      if forallb (λ j, char_at (text e) j =? char_at out_text j) (seq 0 26)
      then
        match decode (text e) (replicate 16 0) with
        | None => None
        | Some (err, out_bytes) =>
            if (err =? 0)
               && forallb (λ j, nth j (bytes e) 0 =? nth j out_bytes 0)
                    (seq 0 16)
            then Some tt
            else None
        end
      else None
  end.

(** [for (int i = 0; i < N_CASES; i++) { ... }], with [n] iterations left. *)
Fixpoint positive_loop (test_vector : list TestCase) (n i : nat)
    : option unit :=
  match n with
  | O => Some tt
  | S n' =>
      match positive_case (nth i test_vector {| bytes := []; text := "" |}) with
      | None => None
      | Some _ => positive_loop test_vector n' (S i)
      end
  end.

(** The statements of [test_negative_cases], one for each text:
    [err = decode(text, out_bytes); assert(err != 0);] on one [out_bytes]. *)
Fixpoint negative_cases (texts : list string) (out_bytes : list Z)
    : option unit :=
  match texts with
  | [] => Some tt
  | t :: rest =>
      match decode t out_bytes with
      | None => None
      | Some (err, out_bytes') =>
          if err =? 0 then None else negative_cases rest out_bytes'
      end
  end.

End Harness.

Definition N_CASES : nat := 5.

Definition test_bytes : list (list Z) :=
  [ [0; 0; 0; 0; 0; 0; 0; 0; 0; 0; 0; 0; 0; 0; 0; 0];
    [0x01; 0x7f; 0xee; 0x7f; 0xef; 0x41; 0x7e; 0x2b; 0x34; 0x32; 0xac; 0x2e;
     0xc5; 0x53; 0x68; 0x7c];
    [0x01; 0x7f; 0xee; 0x7f; 0xef; 0x42; 0x7e; 0x2b; 0x34; 0x6c; 0x0f; 0xf4;
     0x14; 0xbb; 0xcf; 0xfd];
    [0x01; 0x7f; 0xef; 0x39; 0xc2; 0x64; 0x1b; 0xa5; 0x6a; 0x94; 0x83; 0x18;
     0x88; 0x41; 0xe0; 0x5a];
    [0xff; 0xff; 0xff; 0xff; 0xff; 0xff; 0xff; 0xff; 0xff; 0xff; 0xff; 0xff;
     0xff; 0xff; 0xff; 0xff] ].

(** [main]: both tests, then [return 0]. *)
Definition run_main (positive negative : option unit) : option Z :=
  match positive with
  | None => None
  | Some _ => match negative with None => None | Some _ => Some 0 end
  end.

End SelfTest.

Module NaiveTest.

Definition test_vector : list SelfTest.TestCase :=
  zip_with SelfTest.Build_TestCase SelfTest.test_bytes
    [ "0000000000000000000000000"; "0372HG16CSMSM50L8DIKCVUKC";
      "0372HG16CY3NOWRACLS909WCD"; "0372IJOJUXUHJSFKERYI2MRTM";
      "F5LXX1ZZ5PNORYNQGLHZMSP33" ]%string.

Definition test_positive_cases : option unit :=
  SelfTest.positive_loop Naive.encode Naive.decode test_vector
    SelfTest.N_CASES 0.

Definition test_negative_cases : option unit :=
  SelfTest.negative_cases Naive.decode
    [ "0"; "00000000000000000000000000"; "F5LXX1ZZ5PN+RYNQGLHZMSP33";
      "F5LXX1ZZ5PNORYNQGLHZMSP34"; "ZZZZZZZZZZZZZZZZZZZZZZZZZ" ]%string
    (replicate 16 0).

Definition main : option Z :=
  SelfTest.run_main test_positive_cases test_negative_cases.

End NaiveTest.

Module RefinedTest.

Definition test_vector : list SelfTest.TestCase :=
  zip_with SelfTest.Build_TestCase SelfTest.test_bytes
    [ "0000000000000000000000000"; "0372hg16csmsm50l8dikcvukc";
      "0372hg16cy3nowracls909wcd"; "0372ijojuxuhjsfkeryi2mrtm";
      "f5lxx1zz5pnorynqglhzmsp33" ]%string.

Definition test_positive_cases : option unit :=
  SelfTest.positive_loop Refined.encode Refined.decode test_vector
    SelfTest.N_CASES 0.

Definition test_negative_cases : option unit :=
  SelfTest.negative_cases Refined.decode
    [ "0"; "00000000000000000000000000"; "f5lxx1zz5pn+rynqglhzmsp33";
      "f5lxx1zz5pnorynqglhzmsp34"; "zzzzzzzzzzzzzzzzzzzzzzzzz" ]%string
    (replicate 16 0).

Definition main : option Z :=
  SelfTest.run_main test_positive_cases test_negative_cases.

End RefinedTest.

(** ** The revised file built with [USE_NAIVE_CODE]

    The flag replaces the loops of [convert_base] by those of
    [base36_128.c]; the rest of the file is unchanged. *)

Module RefinedNaiveBuild.

Definition convert_base := Naive.convert_base.
Definition DIGITS : string := Refined.DIGITS.
Definition encode : list Z → option string := encode convert_base DIGITS.
Definition decode : string → list Z → option (Z * list Z) :=
  decode convert_base.

End RefinedNaiveBuild.

(** ** Vocabulary of the further properties *)

(** [r] with [lo] put back behind its output. *)
Definition with_tail (lo : list Z) (r : option (Z * list Z))
    : option (Z * list Z) :=
  match r with
  | Some (err, out') => Some (err, out' ++ lo)
  | None => None
  end.

(** Comparison of two arrays element by element from the front, as
    [memcmp] compares byte arrays. *)
Fixpoint lex_compare (l1 l2 : list Z) : comparison :=
  match l1, l2 with
  | [], [] => Eq
  | [], _ :: _ => Lt
  | _ :: _, [] => Gt
  | x :: l1', y :: l2' =>
      match x ?= y with
      | Eq => lex_compare l1' l2'
      | c => c
      end
  end.

(** A [DIGITS] table keeps the order of the digit values. *)
Definition digits_table_monotone_check (DIGITS : string) : bool :=
  forallb (λ i, forallb (λ j,
      match Ascii.compare (digit_char DIGITS (Z.of_nat i))
              (digit_char DIGITS (Z.of_nat j)),
            Z.of_nat i ?= Z.of_nat j with
      | Eq, Eq | Lt, Lt | Gt, Gt => true
      | _, _ => false
      end) (seq 0 36)) (seq 0 36).

(** No character of [t] is NUL: [t] is a C string of its own length. *)
Definition no_nul (t : string) : Prop :=
  ∀ k, (k < String.length t)%nat → char_at t k ≠ 0.

(** * Properties *)

(** ** Numerals *)

Lemma fold_value_acc (base : Z) (ds : list Z) (a : Z) :
  fold_left (λ acc d, acc * base + d) ds a
  = a * base ^ Z.of_nat (length ds) + value base ds.
Proof.
  unfold value. revert a.
  induction ds as [|d ds IH]; intros a; simpl fold_left.
  - simpl. lia.
  - rewrite (IH (a * base + d)), (IH (0 * base + d)).
    rewrite length_cons, Nat2Z.inj_succ, Z.pow_succ_r by lia. ring.
Qed.

Lemma value_nil (base : Z) : value base [] = 0.
Proof. reflexivity. Qed.

Lemma value_app (base : Z) (l1 l2 : list Z) :
  value base (l1 ++ l2)
  = value base l1 * base ^ Z.of_nat (length l2) + value base l2.
Proof.
  unfold value at 1. rewrite fold_left_app.
  fold (value base l1). apply fold_value_acc.
Qed.

Lemma value_snoc (base : Z) (l : list Z) (x : Z) :
  value base (l ++ [x]) = value base l * base + x.
Proof. rewrite value_app. unfold value at 2. simpl. lia. Qed.

Lemma value_bounds (base : Z) (l : list Z) :
  0 < base → Forall (is_digit base) l →
  0 ≤ value base l < base ^ Z.of_nat (length l).
Proof.
  intros Hb. induction l as [|x l IH] using rev_ind; intros Hl.
  - rewrite value_nil. simpl. lia.
  - apply Forall_app in Hl as [Hl Hx]. apply Forall_inv in Hx.
    specialize (IH Hl). unfold is_digit in Hx.
    rewrite value_snoc, length_app, Nat2Z.inj_add. simpl length.
    rewrite Z.pow_add_r, Z.pow_1_r by lia.
    set (P := base ^ Z.of_nat (length l)) in *.
    assert (value base l * base ≤ (P - 1) * base)
      by (apply Z.mul_le_mono_nonneg_r; lia).
    lia.
Qed.

Lemma value_zeros (base : Z) (l : list Z) :
  (∀ k x, l !! k = Some x → x = 0) → value base l = 0.
Proof.
  induction l as [|x l IH] using rev_ind; intros Hz; [done|].
  rewrite value_snoc, IH.
  - rewrite (Hz (length l) x); [lia|].
    rewrite lookup_app_r, Nat.sub_diag by lia. done.
  - intros k y Hk. apply (Hz k). rewrite lookup_app_l; [done|].
    by eapply lookup_lt_Some.
Qed.

Lemma value_replicate_0 (base : Z) (n : nat) : value base (replicate n 0) = 0.
Proof.
  apply value_zeros. intros k x Hk.
  apply lookup_replicate in Hk as [-> _]. done.
Qed.

(** A numeral is at least any of its prefixes. *)
Lemma value_prefix_le (base : Z) (l1 l2 : list Z) :
  0 < base → Forall (is_digit base) l1 → Forall (is_digit base) l2 →
  value base l1 ≤ value base (l1 ++ l2).
Proof.
  intros Hb H1 H2. rewrite value_app.
  pose proof (value_bounds base l1 Hb H1).
  pose proof (value_bounds base l2 Hb H2).
  assert (0 < base ^ Z.of_nat (length l2)) by (apply Z.pow_pos_nonneg; lia).
  nia.
Qed.

Lemma length_digits_le (base : Z) (n : nat) (v : Z) :
  length (digits_le base n v) = n.
Proof. revert v. induction n; intros; simpl; auto. Qed.

Lemma length_digits_of (base : Z) (n : nat) (v : Z) :
  length (digits_of base n v) = n.
Proof. unfold digits_of. by rewrite length_rev, length_digits_le. Qed.

Lemma digits_of_succ (base : Z) (n : nat) (v : Z) :
  digits_of base (S n) v = digits_of base n (v / base) ++ [v mod base].
Proof. reflexivity. Qed.

Lemma digits_of_is_digit (base : Z) (n : nat) (v : Z) :
  0 < base → Forall (is_digit base) (digits_of base n v).
Proof.
  intros Hb. revert v. induction n as [|n IH]; intros v.
  - constructor.
  - rewrite digits_of_succ. apply Forall_app. split; [apply IH|].
    apply Forall_singleton. unfold is_digit. apply Z.mod_pos_bound. lia.
Qed.

Lemma value_digits_of (base : Z) (n : nat) (v : Z) :
  0 < base → 0 ≤ v < base ^ Z.of_nat n → value base (digits_of base n v) = v.
Proof.
  intros Hb. revert v. induction n as [|n IH]; intros v Hv.
  - simpl in Hv. cbn. lia.
  - rewrite digits_of_succ, value_snoc.
    rewrite Nat2Z.inj_succ, Z.pow_succ_r in Hv by lia.
    rewrite IH.
    + pose proof (Z.div_mod v base). lia.
    + split; [apply Z.div_pos; lia|].
      apply Z.div_lt_upper_bound; lia.
Qed.

(** A digit list is the numeral of its value: representations are unique. *)
Lemma digits_of_value (base : Z) (l : list Z) :
  0 < base → Forall (is_digit base) l →
  digits_of base (length l) (value base l) = l.
Proof.
  intros Hb. induction l as [|x l IH] using rev_ind; intros Hl; [done|].
  apply Forall_app in Hl as [Hl Hx]. apply Forall_inv in Hx.
  unfold is_digit in Hx.
  rewrite length_app. simpl length. rewrite Nat.add_1_r.
  rewrite digits_of_succ, value_snoc.
  replace ((value base l * base + x) / base) with (value base l).
  - replace ((value base l * base + x) mod base) with x.
    + by rewrite IH.
    + rewrite Z.add_comm, Z.mod_add by lia. symmetry. apply Z.mod_small. lia.
  - rewrite Z.add_comm, Z.div_add by lia. rewrite Z.div_small; lia.
Qed.

Lemma pow_256_16 : 256 ^ 16 = 2 ^ 128.
Proof. vm_compute. reflexivity. Qed.

Lemma wrap_small (bits x : Z) : 0 ≤ x < 2 ^ bits → wrap bits x = x.
Proof. intros. unfold wrap. by apply Z.mod_small. Qed.

(** ** The zero-filling loop *)

Lemma zero_out_app (pre rest : list Z) (n : nat) :
  (n ≤ length rest)%nat →
  zero_out n (length pre) (pre ++ rest)
  = pre ++ replicate n 0 ++ drop n rest.
Proof.
  revert pre rest. induction n as [|n IH]; intros pre rest Hn.
  - simpl. by rewrite drop_0.
  - destruct rest as [|r rest]; [simpl in Hn; lia|].
    simpl zero_out.
    rewrite insert_app_r_alt, Nat.sub_diag by lia. simpl.
    replace (S (length pre)) with (length (pre ++ [0]))
      by (rewrite length_app; simpl; lia).
    rewrite (cons_middle 0 pre rest), (assoc_L (++)).
    rewrite IH by (simpl in Hn; lia).
    by rewrite <- (assoc_L (++)).
Qed.

Lemma zero_out_all (out : list Z) :
  zero_out (length out) 0 out = replicate (length out) 0.
Proof.
  pose proof (zero_out_app [] out (length out)) as H.
  simpl in H. rewrite H by lia.
  by rewrite drop_all, app_nil_r.
Qed.

(** ** One step of the inner loop is exact *)

Section InnerStep.

Variables bits mult out_base : Z.
Hypothesis Hob : 0 < out_base ≤ 256.
Hypothesis Hfit : mult * out_base ≤ 2 ^ bits.

Lemma inner_step_exact (j : nat) (out : list Z) (carry : Z) (tr : list Z) (x : Z) :
  out !! j = Some x → is_digit out_base x → 0 ≤ carry < mult →
  inner_step bits mult out_base j out carry tr
  = (<[j:=(carry + x * mult) mod out_base]> out,
     (carry + x * mult) / out_base,
     tr ++ [carry + x * mult; (carry + x * mult) / out_base])
  ∧ 0 ≤ carry + x * mult ≤ mult * out_base - 1
  ∧ 0 ≤ (carry + x * mult) / out_base < mult
  ∧ is_digit out_base ((carry + x * mult) mod out_base).
Proof.
  intros Hj [Hx0 Hx1] Hc. unfold inner_step.
  rewrite nth_lookup, Hj. simpl default.
  set (sum := carry + x * mult).
  assert (Hsum : 0 ≤ sum ≤ mult * out_base - 1).
  { unfold sum.
    assert (x * mult ≤ (out_base - 1) * mult)
      by (apply Z.mul_le_mono_nonneg_r; lia).
    assert (0 ≤ x * mult) by (apply Z.mul_nonneg_nonneg; lia).
    lia. }
  assert (Hq : 0 ≤ sum / out_base < mult).
  { split; [apply Z.div_pos; lia|].
    apply Z.div_lt_upper_bound; lia. }
  assert (Hm : 0 ≤ sum mod out_base < out_base)
    by (apply Z.mod_pos_bound; lia).
  assert (mult ≤ mult * out_base) by nia.
  rewrite !(wrap_small bits sum) by lia.
  rewrite (wrap_small bits (sum / out_base)) by lia.
  rewrite (wrap_small 8) by (change (2 ^ 8) with 256; lia).
  unfold is_digit. auto.
Qed.

End InnerStep.

(** ** The naive conversion *)

Section NaiveLoops.

Variables in_base out_base : Z.
Hypothesis Hib : 2 ≤ in_base ≤ 256.
Hypothesis Hob : 2 ≤ out_base ≤ 256.

Lemma naive_fit : in_base * out_base ≤ 2 ^ UINT_FAST16_BITS.
Proof. change (2 ^ UINT_FAST16_BITS) with (256 * 256). nia. Qed.

Lemma naive_inner_loop_S (j : nat) (out : list Z) (c : Z) (tr : list Z) :
  Naive.inner_loop in_base out_base (S j) out c tr
  = let '(out', carry', tr') :=
      inner_step UINT_FAST16_BITS in_base out_base j out c tr in
    Naive.inner_loop in_base out_base j out' carry' tr'.
Proof. reflexivity. Qed.

(** One pass of the inner loop multiplies the numeral in [out] by [in_base]
    and adds [carry]; what does not fit comes back in [carry]. *)
Lemma naive_inner_loop_spec (hi lo : list Z) (c : Z) (tr : list Z) :
  Forall (is_digit out_base) hi → 0 ≤ c < in_base →
  ∃ hi' c' tr',
    Naive.inner_loop in_base out_base (length hi) (hi ++ lo) c tr
    = (hi' ++ lo, c', tr ++ tr')
    ∧ length hi' = length hi
    ∧ Forall (is_digit out_base) hi'
    ∧ 0 ≤ c' < in_base
    ∧ value out_base hi * in_base + c
      = c' * out_base ^ Z.of_nat (length hi) + value out_base hi'
    ∧ Forall (naive_bound in_base out_base) tr'.
Proof.
  revert lo c tr. induction hi as [|x hi IH] using rev_ind; intros lo c tr Hhi Hc.
  - exists [], c, []. simpl. rewrite app_nil_r.
    repeat split; try constructor; try lia. rewrite value_nil. lia.
  - apply Forall_app in Hhi as [Hhi Hx]. apply Forall_inv in Hx.
    rewrite length_app. simpl length. rewrite Nat.add_1_r.
    rewrite naive_inner_loop_S.
    destruct (inner_step_exact UINT_FAST16_BITS in_base out_base
                ltac:(lia) naive_fit (length hi) ((hi ++ [x]) ++ lo) c tr x)
      as (-> & Hsum & Hq & Hm); [|done|done|].
    { rewrite <- (assoc_L (++)), lookup_app_r, Nat.sub_diag by lia. done. }
    set (sum := c + x * in_base) in *.
    rewrite <- (assoc_L (++)), insert_app_r_alt, Nat.sub_diag by lia.
    simpl.
    destruct (IH (sum mod out_base :: lo) (sum / out_base)
                (tr ++ [sum; sum / out_base]) Hhi Hq)
      as (hi' & c' & tr' & -> & Hlen & Hd & Hc' & Hval & Htr).
    exists (hi' ++ [sum mod out_base]), c', ([sum; sum / out_base] ++ tr').
    rewrite <- !(assoc_L (++)). simpl.
    split; [done|]. split; [rewrite !length_app; simpl; lia|].
    split; [apply Forall_app; split; [done|by apply Forall_singleton]|].
    split; [done|]. split.
    + rewrite !value_snoc, Nat2Z.inj_succ, Z.pow_succ_r by lia.
      pose proof (Z.div_mod sum out_base ltac:(lia)) as Hdm.
      unfold sum in Hdm at 1. nia.
    + constructor; [done|]. constructor; [|done].
      unfold naive_bound. nia.
Qed.

Lemma naive_outer_loop_spec (in_ : list Z) (n i : nat) (out tr : list Z) :
  (i + n)%nat = length in_ →
  Forall (is_digit in_base) in_ →
  Forall (is_digit out_base) out →
  value out_base out = value in_base (take i in_) →
  ∃ err out' tr',
    Naive.outer_loop in_ in_base (length out) out_base n i out tr
    = (err, out', tr ++ tr')
    ∧ length out' = length out
    ∧ Forall (naive_bound in_base out_base) tr'
    ∧ ((err = 0 ∧ Forall (is_digit out_base) out'
        ∧ value out_base out' = value in_base in_)
       ∨ (err = -1 ∧ out_base ^ Z.of_nat (length out) ≤ value in_base in_)).
Proof.
  intros Hn Hin. revert i out tr Hn.
  induction n as [|n IH]; intros i out tr Hn Hout Hval.
  - exists 0, out, []. simpl. rewrite app_nil_r.
    split; [done|]. split; [done|]. split; [constructor|]. left.
    rewrite take_ge in Hval by lia. done.
  - destruct (lookup_lt_is_Some_2 in_ i ltac:(lia)) as [d Hd].
    assert (Hdd : is_digit in_base d).
    { eapply Forall_forall; [exact Hin|]. apply list_elem_of_In.
      eapply list_elem_of_lookup_2. exact Hd. }
    unfold is_digit in Hdd.
    simpl Naive.outer_loop. rewrite nth_lookup, Hd. simpl default.
    rewrite (wrap_small UINT_FAST16_BITS d)
      by (change (2 ^ UINT_FAST16_BITS) with 65536; lia).
    destruct (naive_inner_loop_spec out [] d (tr ++ [d]) Hout ltac:(lia))
      as (out' & c' & tr' & Heq & Hlen & Hd' & Hc' & Harith & Htr).
    rewrite !app_nil_r in Heq. rewrite Heq.
    assert (Hpre : value in_base (take (S i) in_) 
                   = c' * out_base ^ Z.of_nat (length out) + value out_base out').
    { rewrite (take_S_r _ _ _ Hd), value_snoc, <- Hval. lia. }
    assert (Hbd : naive_bound in_base out_base d) by (unfold naive_bound; nia).
    destruct (Z.eqb_spec c' 0) as [->|Hnz].
    + destruct (IH (S i) out' (tr ++ [d] ++ tr') ltac:(lia) Hd')
        as (err & out'' & tr'' & Heq' & Hlen' & Htr' & Hres).
      { rewrite Hpre. lia. }
      rewrite Hlen in Heq'. rewrite <- (assoc_L (++)), Heq'.
      exists err, out'', ([d] ++ tr' ++ tr'').
      rewrite <- !(assoc_L (++)). split; [done|].
      split; [lia|]. split.
      { constructor; [done|]. apply Forall_app. done. }
      rewrite <- Hlen. done.
    + exists (-1), out', ([d] ++ tr').
      rewrite <- !(assoc_L (++)). split; [done|].
      split; [done|]. split; [by constructor|]. right. split; [done|].
      pose proof (value_bounds out_base out' ltac:(lia) Hd') as Hb'.
      assert (0 < out_base ^ Z.of_nat (length out))
        by (apply Z.pow_pos_nonneg; lia).
      assert (Hge : out_base ^ Z.of_nat (length out)
                    ≤ value in_base (take (S i) in_)) by nia.
      etrans; [exact Hge|].
      rewrite <- (take_drop (S i) in_) at 2.
      apply value_prefix_le; [lia| |].
      * rewrite <- (take_drop (S i) in_) in Hin.
        by apply Forall_app in Hin as [? _].
      * rewrite <- (take_drop (S i) in_) in Hin.
        by apply Forall_app in Hin as [_ ?].
Qed.

End NaiveLoops.

(** ** What a conversion returns *)

Lemma converted_of_loop (in_ : list Z) (in_base out_base : Z)
    (n : nat) (err : Z) (out' : list Z) :
  2 ≤ in_base → 2 ≤ out_base → Forall (is_digit in_base) in_ →
  length out' = n →
  (err = 0 ∧ Forall (is_digit out_base) out'
   ∧ value out_base out' = value in_base in_)
  ∨ (err = -1 ∧ out_base ^ Z.of_nat n ≤ value in_base in_) →
  converted in_ in_base (Z.of_nat n) out_base err out'.
Proof.
  intros Hib Hob Hin Hlen Hres. unfold converted.
  rewrite Nat2Z.id. split; [done|].
  destruct Hres as [(-> & Hd & Hv)|(-> & Hge)].
  - pose proof (value_bounds out_base out' ltac:(lia) Hd) as Hb.
    rewrite Hlen, Hv in Hb.
    destruct (Z.ltb_spec (value in_base in_) (out_base ^ Z.of_nat n)); [|lia].
    split; [done|].
    rewrite <- Hv, <- Hlen. symmetry. apply digits_of_value; [lia|done].
  - destruct (Z.ltb_spec (value in_base in_) (out_base ^ Z.of_nat n)); [lia|done].
Qed.

Lemma naive_convert_base_run_spec (in_ : list Z) (in_len in_base : Z)
    (out : list Z) (out_len out_base : Z) :
  precondition in_ in_len in_base out out_len out_base →
  ∃ err out' tr,
    Naive.convert_base_run in_ in_len in_base out out_len out_base
    = (err, out', tr)
    ∧ converted in_ in_base out_len out_base err out'
    ∧ Forall (naive_bound in_base out_base) tr.
Proof.
  intros (Hib & Hob & Hin & <- & <-). unfold Naive.convert_base_run.
  rewrite !Nat2Z.id, zero_out_all.
  destruct (naive_outer_loop_spec in_base out_base Hib Hob in_ (length in_) 0
              (replicate (length out) 0) [])
    as (err & out' & tr' & Heq & Hlen & Htr & Hres).
  { done. } { done. }
  { apply Forall_replicate. unfold is_digit. lia. }
  { by rewrite value_replicate_0, take_0. }
  rewrite length_replicate in Heq, Hlen, Hres.
  rewrite Heq. exists err, out', tr'. split; [done|].
  split; [|done]. apply converted_of_loop; try done; lia.
Qed.

(** ** The refined conversion *)

Lemma uint64_max_eq : UINT64_MAX = 18446744073709551615.
Proof. reflexivity. Qed.

Section WordSelection.

Variables in_base out_base : Z.
Hypothesis Hib : 2 ≤ in_base ≤ 256.
Hypothesis Hob : 2 ≤ out_base ≤ 256.

Lemma word_loop_spec (fuel : nat) (wl wb : Z) :
  (fuel ≤ 64)%nat → 1 ≤ wl → wb = in_base ^ wl →
  wb * out_base ≤ UINT64_MAX → 2 ^ (65 - Z.of_nat fuel) ≤ wb →
  ∃ wl' wb',
    Refined.word_loop fuel in_base out_base wl wb = Some (wl', wb')
    ∧ 1 ≤ wl' ∧ wb' = in_base ^ wl'
    ∧ wb' * out_base ≤ UINT64_MAX
    ∧ UINT64_MAX / (in_base * out_base) < wb'.
Proof.
  revert wl wb. induction fuel as [|fuel IH]; intros wl wb Hf Hwl Hwb Hfit Hlow.
  - exfalso. change (2 ^ (65 - Z.of_nat 0)) with 36893488147419103232 in Hlow.
    rewrite uint64_max_eq in Hfit. nia.
  - simpl Refined.word_loop.
    rewrite (wrap_small 64 in_base), (wrap_small 64 out_base)
      by (change (2 ^ 64) with 18446744073709551616; lia).
    rewrite (wrap_small 64 (in_base * out_base))
      by (change (2 ^ 64) with 18446744073709551616; nia).
    destruct (Z.leb_spec wb (UINT64_MAX / (in_base * out_base))) as [Hle|Hgt].
    + assert (Hprod : wb * (in_base * out_base) ≤ UINT64_MAX).
      { pose proof (Z.mul_div_le UINT64_MAX (in_base * out_base) ltac:(nia)).
        assert (wb * (in_base * out_base)
                ≤ UINT64_MAX / (in_base * out_base) * (in_base * out_base))
          by (apply Z.mul_le_mono_nonneg_r; nia).
        lia. }
      assert (0 < wb) by (subst wb; apply Z.pow_pos_nonneg; lia).
      rewrite wrap_small.
      2:{ rewrite uint64_max_eq in Hprod.
          change (2 ^ 64) with 18446744073709551616. nia. }
      apply IH; [lia|lia| | |].
      * subst wb. rewrite Z.pow_add_r, Z.pow_1_r by lia. done.
      * lia.
      * replace (65 - Z.of_nat fuel) with (Z.succ (65 - Z.of_nat (S fuel)))
          by lia.
        rewrite Z.pow_succ_r by lia. nia.
    + exists wl, wb. done.
Qed.

Lemma select_word_spec :
  ∃ wl wb,
    Refined.select_word in_base out_base = Some (wl, wb)
    ∧ 1 ≤ wl ∧ wb = in_base ^ wl
    ∧ wb * out_base ≤ UINT64_MAX
    ∧ UINT64_MAX / (in_base * out_base) < wb.
Proof.
  unfold Refined.select_word.
  rewrite (wrap_small 64 in_base)
    by (change (2 ^ 64) with 18446744073709551616; lia).
  apply word_loop_spec; [lia|lia| | |].
  - by rewrite Z.pow_1_r.
  - rewrite uint64_max_eq. nia.
  - change (2 ^ (65 - Z.of_nat 64)) with 2. lia.
Qed.

End WordSelection.

Section RefinedLoops.

Variables in_base out_base word_len word_base : Z.
Hypothesis Hib : 2 ≤ in_base ≤ 256.
Hypothesis Hob : 2 ≤ out_base ≤ 256.
Hypothesis Hwl : 1 ≤ word_len.
Hypothesis Hwb : word_base = in_base ^ word_len.
Hypothesis Hfit : word_base * out_base ≤ UINT64_MAX.

Lemma refined_fit : word_base * out_base ≤ 2 ^ 64.
Proof.
  rewrite uint64_max_eq in Hfit.
  change (2 ^ 64) with 18446744073709551616. lia.
Qed.

Lemma word_base_pos : 0 < word_base.
Proof. rewrite Hwb. apply Z.pow_pos_nonneg; lia. Qed.

(** Reading [n] digits into a carry that holds [k] digits already. *)
Lemma read_word_spec (in_ : list Z) (n j : nat) (c : Z) (tr : list Z) (k : Z) :
  Forall (is_digit in_base) in_ → (j + n ≤ length in_)%nat →
  0 ≤ k → k + Z.of_nat n ≤ word_len → 0 ≤ c < in_base ^ k →
  ∃ c' tr',
    Refined.read_word in_ in_base n j c tr = (c', tr ++ tr')
    ∧ c' = c * in_base ^ Z.of_nat n + value in_base (take n (drop j in_))
    ∧ 0 ≤ c' < in_base ^ (k + Z.of_nat n)
    ∧ Forall (refined_bound out_base word_base) tr'.
Proof.
  intros Hin. revert j c tr k.
  induction n as [|n IH]; intros j c tr k Hj Hk Hkn Hc.
  - exists c, []. simpl Refined.read_word.
    rewrite app_nil_r, take_0, value_nil.
    change (Z.of_nat 0) with 0. rewrite !Z.add_0_r, Z.pow_0_r, Z.mul_1_r.
    repeat split; try lia. constructor.
  - destruct (lookup_lt_is_Some_2 in_ j ltac:(lia)) as [d Hd].
    assert (Hdd : is_digit in_base d).
    { eapply Forall_forall; [exact Hin|]. apply list_elem_of_In.
      eapply list_elem_of_lookup_2. exact Hd. }
    unfold is_digit in Hdd.
    simpl Refined.read_word. rewrite nth_lookup, Hd. simpl default.
    rewrite (wrap_small 64 in_base)
      by (change (2 ^ 64) with 18446744073709551616; lia).
    set (x := c * in_base + d).
    assert (Hx : 0 ≤ x < in_base ^ (k + 1)).
    { rewrite Z.pow_add_r, Z.pow_1_r by lia. unfold x.
      assert (c * in_base ≤ (in_base ^ k - 1) * in_base)
        by (apply Z.mul_le_mono_nonneg_r; lia).
      nia. }
    assert (Hxw : in_base ^ (k + 1) ≤ word_base).
    { rewrite Hwb. apply Z.pow_le_mono_r; lia. }
    pose proof word_base_pos. pose proof refined_fit.
    assert (word_base ≤ word_base * out_base) by nia.
    rewrite (wrap_small 64 x) by lia.
    destruct (IH (S j) x (tr ++ [x]) (k + 1)) as (c' & tr' & -> & Hc' & Hr & Htr);
      [lia|lia|lia|done|].
    exists c', ([x] ++ tr'). rewrite <- (assoc_L (++)). split; [done|].
    split; [|split].
    + rewrite Hc', (drop_S _ _ _ Hd). simpl take.
      change (d :: take n (drop (S j) in_))
        with ([d] ++ take n (drop (S j) in_)).
      rewrite value_app, length_take_le by (rewrite length_drop; lia).
      rewrite Nat2Z.inj_succ, Z.pow_succ_r by lia.
      unfold x. cbn [value fold_left]. ring.
    + replace (k + Z.of_nat (S n)) with (k + 1 + Z.of_nat n) by lia. done.
    + constructor; [|done]. unfold refined_bound. lia.
Qed.

Lemma zeros_below_app_l (used : Z) (l1 l2 : list Z) :
  zeros_below used (l1 ++ l2) → zeros_below used l1.
Proof.
  intros Hz k x Hk. apply (Hz k). rewrite lookup_app_l; [done|].
  by eapply lookup_lt_Some.
Qed.

Lemma refined_inner_loop_S (j : nat) (out : list Z) (c used : Z) (tr : list Z) :
  Refined.inner_loop word_base out_base (S j) out c used tr
  = let '(out', carry', tr') := inner_step 64 word_base out_base j out c tr in
    if (carry' =? 0) && (Z.of_nat j <=? used)
    then (out', carry', Z.of_nat j, tr')
    else Refined.inner_loop word_base out_base j out' carry' used tr'.
Proof. reflexivity. Qed.

(** One pass of the inner loop, early exit included, multiplies the numeral
    in [out] by [word_base] and adds [carry]. *)
Lemma refined_inner_loop_spec (hi lo : list Z) (c used : Z) (tr : list Z) :
  Forall (is_digit out_base) hi → 0 ≤ c < word_base →
  zeros_below used hi → used < Z.of_nat (length hi) ∨ c ≠ 0 →
  ∃ hi' c' used' tr',
    Refined.inner_loop word_base out_base (length hi) (hi ++ lo) c used tr
    = (hi' ++ lo, c', used', tr ++ tr')
    ∧ length hi' = length hi
    ∧ Forall (is_digit out_base) hi'
    ∧ 0 ≤ c' < word_base
    ∧ value out_base hi * word_base + c
      = c' * out_base ^ Z.of_nat (length hi) + value out_base hi'
    ∧ Forall (refined_bound out_base word_base) tr'
    ∧ (c' = 0 → used' < Z.of_nat (length hi) ∧ zeros_below used' hi').
Proof.
  revert lo c tr.
  induction hi as [|x hi IH] using rev_ind; intros lo c tr Hhi Hc Hz Hused.
  - exists [], c, used, []. simpl. rewrite app_nil_r.
    repeat split; try constructor; try lia.
    + rewrite value_nil. lia.
    + simpl in Hused. lia.
    + intros k y Hk. done.
  - apply Forall_app in Hhi as [Hhi Hx]. apply Forall_inv in Hx.
    rewrite length_app. simpl length. rewrite Nat.add_1_r.
    rewrite length_app in Hused. simpl length in Hused.
    rewrite refined_inner_loop_S.
    destruct (inner_step_exact 64 word_base out_base
                ltac:(lia) refined_fit (length hi) ((hi ++ [x]) ++ lo) c tr x)
      as (-> & Hsum & Hq & Hm); [|done|done|].
    { rewrite <- (assoc_L (++)), lookup_app_r, Nat.sub_diag by lia. done. }
    set (sum := c + x * word_base) in *.
    rewrite <- (assoc_L (++)), insert_app_r_alt, Nat.sub_diag by lia.
    simpl.
    pose proof (Z.div_mod sum out_base ltac:(lia)) as Hdm.
    pose proof (zeros_below_app_l _ _ _ Hz) as Hz0.
    destruct ((sum / out_base =? 0) && (Z.of_nat (length hi) <=? used))
      eqn:Hexit.
    + (* early exit: the digits to the left are zero and stay so *)
      apply andb_prop in Hexit as [Hq0 Hle].
      apply Z.eqb_eq in Hq0. apply Z.leb_le in Hle.
      exists (hi ++ [sum mod out_base]), (sum / out_base),
        (Z.of_nat (length hi)), [sum; sum / out_base].
      rewrite <- (assoc_L (++)). simpl.
      split; [done|]. split; [rewrite !length_app; simpl; lia|].
      split; [apply Forall_app; split; [done|by apply Forall_singleton]|].
      split; [done|].
      assert (Hv0 : value out_base hi = 0).
      { apply value_zeros. intros k y Hk. apply (Hz0 k y Hk).
        apply lookup_lt_Some in Hk. lia. }
      split; [|split].
      * rewrite !value_snoc, Hv0, Hq0. unfold sum in Hdm at 1. lia.
      * constructor; [done|]. constructor; [|done]. unfold refined_bound. nia.
      * intros _. split; [lia|].
        intros k y Hk Hlt. apply (Hz0 k y); [|lia].
        rewrite lookup_app_l in Hk by lia. done.
    + (* the loop goes on to the next digit on the left *)
      assert (Hnext : used < Z.of_nat (length hi) ∨ sum / out_base ≠ 0).
      { apply Bool.andb_false_iff in Hexit as [Hq0|Hgt].
        - right. by apply Z.eqb_neq.
        - left. apply Z.leb_gt in Hgt. lia. }
      destruct (IH (sum mod out_base :: lo) (sum / out_base)
                  (tr ++ [sum; sum / out_base]) Hhi Hq Hz0 Hnext)
        as (hi' & c' & used' & tr' & -> & Hlen & Hd & Hc' & Hval & Htr & Hu).
      exists (hi' ++ [sum mod out_base]), c', used',
        ([sum; sum / out_base] ++ tr').
      rewrite <- !(assoc_L (++)). simpl.
      split; [done|]. split; [rewrite !length_app; simpl; lia|].
      split; [apply Forall_app; split; [done|by apply Forall_singleton]|].
      split; [done|]. split; [|split].
      * rewrite !value_snoc, Nat2Z.inj_succ, Z.pow_succ_r by lia.
        unfold sum in Hdm at 1. nia.
      * constructor; [done|]. constructor; [|done]. unfold refined_bound. nia.
      * intros Hc0. destruct (Hu Hc0) as [Hu1 Hu2]. split; [lia|].
        intros k y Hk Hlt. apply (Hu2 k y); [|done].
        rewrite lookup_app_l in Hk by lia. done.
Qed.

Lemma refined_outer_loop_S (fuel : nat) (in_ : list Z) (in_len : Z)
    (out_len : nat) (i : Z) (out : list Z) (used : Z) (tr : list Z) :
  Refined.outer_loop (S fuel) in_ in_len in_base out_len out_base
    word_len word_base i out used tr
  = if i <? in_len then
      let j0 := if i <? 0 then 0 else i in
      let '(carry, tr1) :=
        Refined.read_word in_ in_base (Z.to_nat (i + word_len - j0))
          (Z.to_nat j0) 0 tr in
      let '(out', carry', out_used', tr2) :=
        Refined.inner_loop word_base out_base out_len out carry used tr1 in
      if carry' =? 0
      then Refined.outer_loop fuel in_ in_len in_base out_len out_base
             word_len word_base (i + word_len) out' out_used' tr2
      else Some (-1, out', tr2)
    else Some (0, out, tr).
Proof. reflexivity. Qed.

(** The outer loop with [q] words left to read, the first of them possibly
    a short one read at a negative [i]. *)
Lemma refined_outer_loop_spec (in_ : list Z) (fuel q : nat) (i : Z)
    (out : list Z) (used : Z) (tr : list Z) :
  Forall (is_digit in_base) in_ →
  (q < fuel)%nat →
  Z.of_nat (length in_) - i = Z.of_nat q * word_len →
  - word_len < i →
  Forall (is_digit out_base) out →
  value out_base out = value in_base (take (Z.to_nat i) in_) →
  used < Z.of_nat (length out) → zeros_below used out →
  ∃ err out' tr',
    Refined.outer_loop fuel in_ (Z.of_nat (length in_)) in_base (length out)
      out_base word_len word_base i out used tr
    = Some (err, out', tr ++ tr')
    ∧ length out' = length out
    ∧ Forall (refined_bound out_base word_base) tr'
    ∧ ((err = 0 ∧ Forall (is_digit out_base) out'
        ∧ value out_base out' = value in_base in_)
       ∨ (err = -1 ∧ out_base ^ Z.of_nat (length out) ≤ value in_base in_)).
Proof.
  intros Hin. revert q i out used tr.
  induction fuel as [|fuel IH];
    intros q i out used tr Hq Hrem Hi Hout Hval Hused Hz; [lia|].
  rewrite refined_outer_loop_S.
  destruct q as [|q].
  - (* every word has been read *)
    assert (i = Z.of_nat (length in_)) as -> by lia.
    rewrite Z.ltb_irrefl. exists 0, out, []. rewrite app_nil_r.
    split; [done|]. split; [done|]. split; [constructor|]. left.
    rewrite take_ge in Hval by lia. done.
  - assert (Hiw : i + word_len ≤ Z.of_nat (length in_)) by nia.
    destruct (Z.ltb_spec i (Z.of_nat (length in_))) as [_|?]; [|lia].
    cbv zeta. set (j0 := if i <? 0 then 0 else i).
    assert (Hj0 : (i < 0 ∧ j0 = 0) ∨ (0 ≤ i ∧ j0 = i))
      by (unfold j0; destruct (Z.ltb_spec i 0); lia).
    clearbody j0.
    set (n := Z.to_nat (i + word_len - j0)).
    set (jn := Z.to_nat j0).
    assert (Hjn : (jn + n)%nat = Z.to_nat (i + word_len)) by lia.
    destruct (read_word_spec in_ n jn 0 tr 0 Hin)
      as (c & tr1 & -> & Hc & Hcr & Htr1); [lia|lia|lia|simpl; lia|].
    rewrite Z.mul_0_l, Z.add_0_l in Hc. rewrite Z.add_0_l in Hcr.
    assert (Hcw : 0 ≤ c < word_base).
    { assert (in_base ^ Z.of_nat n ≤ word_base)
        by (rewrite Hwb; apply Z.pow_le_mono_r; lia).
      lia. }
    assert (Hkey : value out_base out * word_base + c
                   = value in_base (take (Z.to_nat (i + word_len)) in_)).
    { rewrite <- Hjn, <- take_take_drop, value_app, <- Hc.
      rewrite length_take_le by (rewrite length_drop; lia).
      destruct Hj0 as [[Hneg Hj]|[Hpos Hj]].
      - replace jn with 0%nat by lia. rewrite take_0, value_nil.
        replace (Z.to_nat i) with 0%nat in Hval by lia.
        rewrite take_0, value_nil in Hval. rewrite Hval. lia.
      - replace jn with (Z.to_nat i) by lia. rewrite Hval.
        replace (Z.of_nat n) with word_len by lia. by rewrite Hwb. }
    destruct (refined_inner_loop_spec out [] c used (tr ++ tr1) Hout Hcw Hz
                ltac:(left; done))
      as (out' & c' & used' & tr2 & Heq & Hlen & Hd' & Hc' & Harith & Htr2 & Hu).
    rewrite !app_nil_r in Heq. rewrite Heq.
    destruct (Z.eqb_spec c' 0) as [Hc0|Hnz].
    + destruct (Hu Hc0) as [Hu1 Hu2].
      destruct (IH q (i + word_len) out' used' ((tr ++ tr1) ++ tr2))
        as (err & out'' & tr'' & Heq' & Hlen' & Htr' & Hres);
        [lia|lia|lia|done| |lia|done|].
      { rewrite <- Hkey, Harith, Hc0. lia. }
      rewrite Hlen in Heq'. rewrite Heq'.
      exists err, out'', (tr1 ++ tr2 ++ tr'').
      rewrite <- !(assoc_L (++)). split; [done|].
      split; [lia|]. split; [by rewrite !Forall_app|].
      rewrite <- Hlen. done.
    + exists (-1), out', (tr1 ++ tr2).
      rewrite <- !(assoc_L (++)).
      split; [done|]. split; [done|]. split; [by rewrite Forall_app|].
      right. split; [done|].
      pose proof (value_bounds out_base out' ltac:(lia) Hd') as Hb'.
      assert (0 < out_base ^ Z.of_nat (length out))
        by (apply Z.pow_pos_nonneg; lia).
      assert (Hge : out_base ^ Z.of_nat (length out)
                    ≤ value in_base (take (Z.to_nat (i + word_len)) in_))
        by nia.
      etrans; [exact Hge|].
      rewrite <- (take_drop (Z.to_nat (i + word_len)) in_) at 2.
      rewrite <- (take_drop (Z.to_nat (i + word_len)) in_) in Hin.
      apply Forall_app in Hin as [? ?].
      apply value_prefix_le; [lia|done|done].
Qed.

End RefinedLoops.

Lemma refined_convert_base_run_spec (in_ : list Z) (in_len in_base : Z)
    (out : list Z) (out_len out_base : Z) :
  precondition in_ in_len in_base out out_len out_base →
  ∃ err out' tr wl wb,
    Refined.convert_base_run in_ in_len in_base out out_len out_base
    = Some (err, out', tr)
    ∧ converted in_ in_base out_len out_base err out'
    ∧ Refined.select_word in_base out_base = Some (wl, wb)
    ∧ Forall (refined_bound out_base wb) tr.
Proof.
  intros (Hib & Hob & Hin & <- & <-). unfold Refined.convert_base_run.
  destruct (select_word_spec in_base out_base Hib Hob)
    as (wl & wb & -> & Hwl & Hwb & Hfit & _).
  rewrite !Nat2Z.id, zero_out_all.
  set (len := Z.of_nat (length in_)).
  rewrite Z.rem_mod_nonneg by lia.
  pose proof (Z.div_mod len wl ltac:(lia)) as Hdm.
  pose proof (Z.mod_pos_bound len wl ltac:(lia)) as Hmb.
  assert (0 ≤ len / wl) by (apply Z.div_pos; lia).
  set (i0 := if 0 <? len mod wl then len mod wl - wl else len mod wl).
  assert (Hq : ∃ q : nat, (q < S (length in_))%nat
                          ∧ len - i0 = Z.of_nat q * wl ∧ - wl < i0 ≤ 0).
  { unfold i0. destruct (Z.ltb_spec 0 (len mod wl)).
    - exists (Z.to_nat (len / wl + 1)). split; [|split]; [nia|nia|lia].
    - exists (Z.to_nat (len / wl)). split; [|split]; [nia|nia|lia]. }
  destruct Hq as (q & Hq1 & Hq2 & Hq3). clearbody i0.
  destruct (refined_outer_loop_spec in_base out_base wl wb Hib Hob Hwl Hwb Hfit
              in_ (S (length in_)) q i0 (replicate (length out) 0)
              (Z.of_nat (length out) - 1) [] Hin Hq1 Hq2)
    as (err & out' & tr' & Heq & Hlen & Htr & Hres).
  { lia. }
  { apply Forall_replicate. unfold is_digit. lia. }
  { replace (Z.to_nat i0) with 0%nat by lia.
    by rewrite value_replicate_0, take_0. }
  { rewrite length_replicate. lia. }
  { intros k x Hk _. apply lookup_replicate in Hk as [-> _]. done. }
  rewrite length_replicate in Heq, Hlen, Hres.
  fold len in Heq. rewrite Heq. exists err, out', tr', wl, wb.
  split; [done|]. split; [|done].
  apply converted_of_loop; try done; lia.
Qed.

(** ** Both conversions meet the same contract *)

Lemma naive_conversion_contract : conversion_contract Naive.convert_base.
Proof.
  intros in_ in_len in_base out out_len out_base Hpre.
  destruct (naive_convert_base_run_spec _ _ _ _ _ _ Hpre)
    as (err & out' & tr & Heq & Hconv & _).
  exists err, out'. unfold Naive.convert_base. by rewrite Heq.
Qed.

Lemma refined_conversion_contract : conversion_contract Refined.convert_base.
Proof.
  intros in_ in_len in_base out out_len out_base Hpre.
  destruct (refined_convert_base_run_spec _ _ _ _ _ _ Hpre)
    as (err & out' & tr & wl & wb & Heq & Hconv & _).
  exists err, out'. unfold Refined.convert_base. by rewrite Heq.
Qed.

Lemma converted_fits (in_ : list Z) (in_base out_len out_base err : Z)
    (out' : list Z) :
  converted in_ in_base out_len out_base err out' →
  value in_base in_ < out_base ^ out_len →
  err = 0 ∧ out' = digits_of out_base (Z.to_nat out_len) (value in_base in_).
Proof.
  intros [_ H] Hlt.
  destruct (Z.ltb_spec (value in_base in_) (out_base ^ out_len)); [done|lia].
Qed.

Lemma converted_overflow (in_ : list Z) (in_base out_len out_base err : Z)
    (out' : list Z) :
  converted in_ in_base out_len out_base err out' →
  out_base ^ out_len ≤ value in_base in_ → err = -1.
Proof.
  intros [_ H] Hge.
  destruct (Z.ltb_spec (value in_base in_) (out_base ^ out_len)); [lia|done].
Qed.

(** ** The alphabet *)

Lemma code_of_range (c : ascii) : 0 ≤ code_of c < 256.
Proof.
  unfold code_of. pose proof (N_ascii_bounded c). lia.
Qed.

Lemma decode_map_alphabet (c : Z) :
  0 ≤ c < 256 →
  rejected c = negb (is_base36_code c)
  ∧ (is_base36_code c = true →
     nth (Z.to_nat c) DECODE_MAP 0 = base36_digit c
     ∧ 0 ≤ base36_digit c < 36).
Proof.
  intros Hc.
  assert (Hall : forallb (λ n, let c := Z.of_nat n in
                   Bool.eqb (rejected c) (negb (is_base36_code c))
                   && implb (is_base36_code c)
                        ((nth (Z.to_nat c) DECODE_MAP 0 =? base36_digit c)
                         && (0 <=? base36_digit c) && (base36_digit c <? 36)))
                 (seq 0 256) = true) by (vm_compute; reflexivity).
  rewrite forallb_forall in Hall.
  specialize (Hall (Z.to_nat c)). rewrite Z2Nat.id in Hall by lia.
  specialize (Hall ltac:(apply in_seq; lia)). cbv zeta in Hall.
  apply andb_prop in Hall as [H1 H2].
  apply Bool.eqb_prop in H1. split; [done|].
  intros Hb. rewrite Hb in H2. unfold implb in H2.
  apply andb_prop in H2 as [H2 H4]. apply andb_prop in H2 as [H2 H3].
  apply Z.eqb_eq in H2. split; [done|lia].
Qed.

Lemma digits_table_check (DIGITS : string) (in_case : Z → bool) :
  forallb (λ n, let c := code_of (digit_char DIGITS (Z.of_nat n)) in
             in_case c && is_base36_code c && (base36_digit c =? Z.of_nat n))
    (seq 0 36) = true →
  digits_table_ok DIGITS in_case.
Proof.
  intros Hall d Hd. rewrite forallb_forall in Hall.
  specialize (Hall (Z.to_nat d)). rewrite Z2Nat.id in Hall by lia.
  specialize (Hall ltac:(apply in_seq; lia)). cbv zeta in Hall.
  apply andb_prop in Hall as [H1 H3]. apply andb_prop in H1 as [H1 H2].
  split; [done|]. split; [done|]. lia.
Qed.

Lemma naive_digits_ok : digits_table_ok Naive.DIGITS is_upper_code.
Proof. apply digits_table_check. vm_compute. reflexivity. Qed.

Lemma refined_digits_ok : digits_table_ok Refined.DIGITS is_lower_code.
Proof. apply digits_table_check. vm_compute. reflexivity. Qed.

(** ** Strings as character arrays *)

Lemma get_string_of_list (l : list ascii) (i : nat) :
  String.get i (string_of_list_ascii l) = l !! i.
Proof.
  revert i. induction l as [|a l IH]; intros [|i]; simpl; auto.
Qed.

Lemma char_at_string_of_list (l : list ascii) (i : nat) :
  char_at (string_of_list_ascii l) i = default 0 (code_of <$> l !! i).
Proof.
  unfold char_at. rewrite get_string_of_list. by destruct (l !! i).
Qed.

Lemma map_nth_seq (l : list Z) :
  map (λ i, nth i l 0) (seq 0 (length l)) = l.
Proof.
  induction l as [|x l IH] using rev_ind; [done|].
  rewrite length_app. simpl length. rewrite Nat.add_1_r, seq_S, map_app.
  simpl. rewrite app_nth2, Nat.sub_diag by lia. simpl. f_equal.
  rewrite <- IH at 2. apply map_ext_in. intros i Hi.
  apply in_seq in Hi. apply app_nth1. lia.
Qed.

(** ** The codec *)

Lemma char_at_range (text : string) (i : nat) : 0 ≤ char_at text i < 256.
Proof.
  unfold char_at. destruct (String.get i text); [apply code_of_range|lia].
Qed.

Lemma read_digits_spec (text : string) (n i : nat) (pre rest : list Z) :
  length pre = i → length rest = n →
  read_digits text n i (pre ++ rest)
  = if forallb (λ k, negb (rejected (char_at text k))) (seq i n)
    then Some (pre ++ map (λ k, nth (Z.to_nat (char_at text k)) DECODE_MAP 0)
                       (seq i n))
    else None.
Proof.
  revert i pre rest. induction n as [|n IH]; intros i pre rest Hpre Hrest.
  - destruct rest; [|done]. done.
  - destruct rest as [|r rest]; [done|].
    cbn [read_digits seq forallb map]. fold (rejected (char_at text i)).
    destruct (rejected (char_at text i)); [done|]. cbn [negb andb].
    rewrite insert_app_r_alt, Hpre, Nat.sub_diag by lia. cbn [insert list_insert].
    rewrite (cons_middle _ pre rest), (assoc_L (++)).
    rewrite IH by (rewrite ?length_app; simpl in *; lia).
    destruct (forallb _ _); [|done].
    by rewrite <- (assoc_L (++)).
Qed.

Lemma read_digits_text (text : string) :
  read_digits text 25 0 (replicate 25 0)
  = if all_base36 text then Some (text_digits text) else None.
Proof.
  pose proof (read_digits_spec text 25 0 [] (replicate 25 0) eq_refl eq_refl)
    as Hread.
  cbn [app] in Hread. rewrite Hread. clear Hread.
  unfold all_base36, text_digits.
  assert (Hext : ∀ l, forallb (λ k, negb (rejected (char_at text k))) l
                      = forallb (λ k, is_base36_code (char_at text k)) l).
  { intros l. induction l as [|k l IH]; [done|]. simpl. rewrite IH. f_equal.
    destruct (decode_map_alphabet _ (char_at_range text k)) as [-> _].
    apply Bool.negb_involutive. }
  rewrite Hext.
  destruct (forallb (λ k, is_base36_code (char_at text k)) (seq 0 25)) eqn:Hall;
    [|done].
  rewrite forallb_forall in Hall. f_equal.
  apply map_ext_in. intros k Hk.
  destruct (decode_map_alphabet _ (char_at_range text k)) as [_ H].
  by destruct (H (Hall k Hk)).
Qed.

Lemma text_digits_ok (text : string) :
  all_base36 text = true →
  Forall (is_digit 36) (text_digits text) ∧ length (text_digits text) = 25%nat.
Proof.
  intros Hall. unfold all_base36 in Hall. rewrite forallb_forall in Hall.
  split; [|unfold text_digits; by rewrite length_map, length_seq].
  apply Forall_forall. intros d Hd. unfold text_digits in Hd.
  apply in_map_iff in Hd as (k & <- & Hk).
  destruct (decode_map_alphabet _ (char_at_range text k)) as [_ H].
  by destruct (H (Hall k Hk)).
Qed.

Section CodecProps.

Variable cb : list Z → Z → Z → list Z → Z → Z → option (Z * list Z).
Variable DIGITS : string.
Variable in_case : Z → bool.
Hypothesis Hcb : conversion_contract cb.
Hypothesis Hdigits : digits_table_ok DIGITS in_case.

Lemma decode_invalid_char (text : string) (out : list Z) :
  all_base36 text = false → decode cb text out = Some (-1, out).
Proof. intros H. unfold decode. by rewrite read_digits_text, H. Qed.

Lemma decode_no_terminator (text : string) (out : list Z) :
  char_at text 25 ≠ 0 → decode cb text out = Some (-1, out).
Proof.
  intros H. unfold decode. rewrite read_digits_text.
  destruct (all_base36 text); [|done].
  destruct (Z.eqb_spec (char_at text 25) 0); done.
Qed.

Lemma decode_converts (text : string) (out : list Z) :
  all_base36 text = true → char_at text 25 = 0 → length out = 16%nat →
  ∃ err out',
    cb (text_digits text) 25 36 out 16 256 = Some (err, out')
    ∧ converted (text_digits text) 36 16 256 err out'
    ∧ decode cb text out = Some (if err =? 0 then 0 else -1, out').
Proof.
  intros Hall Hnul Hout.
  destruct (text_digits_ok text Hall) as [Hd Hlen].
  destruct (Hcb (text_digits text) 25 36 out 16 256) as (err & out' & Heq & Hc).
  { unfold precondition. rewrite Hlen, Hout. repeat split; try lia. done. }
  exists err, out'. split; [done|]. split; [done|].
  unfold decode. rewrite read_digits_text, Hall, Hnul, Heq. simpl.
  by destruct (err =? 0).
Qed.

Lemma decode_in_range (text : string) (out : list Z) :
  all_base36 text = true → char_at text 25 = 0 → length out = 16%nat →
  numeral text < 256 ^ 16 →
  decode cb text out = Some (0, digits_of 256 16 (numeral text)).
Proof.
  unfold numeral. intros Hall Hnul Hout Hlt.
  destruct (decode_converts text out Hall Hnul Hout)
    as (err & out' & _ & Hc & ->).
  destruct (converted_fits _ _ _ _ _ _ Hc Hlt) as [-> ->].
  change (Z.to_nat 16) with 16%nat. reflexivity.
Qed.

Lemma decode_out_of_range (text : string) (out : list Z) :
  all_base36 text = true → char_at text 25 = 0 → length out = 16%nat →
  256 ^ 16 ≤ numeral text →
  ∃ out', decode cb text out = Some (-1, out').
Proof.
  unfold numeral. intros Hall Hnul Hout Hge.
  destruct (decode_converts text out Hall Hnul Hout)
    as (err & out' & _ & Hc & ->).
  rewrite (converted_overflow _ _ _ _ _ _ Hc Hge). exists out'. reflexivity.
Qed.

Lemma bytes_fit (bytes : list Z) :
  length bytes = 16%nat → Forall (is_digit 256) bytes →
  0 ≤ value 256 bytes < 256 ^ 16 ∧ 256 ^ 16 < 36 ^ 25.
Proof.
  intros Hlen Hb. pose proof (value_bounds 256 bytes ltac:(lia) Hb) as H.
  rewrite Hlen in H. split; [exact H|vm_compute; reflexivity].
Qed.

Lemma encode_converts (bytes dv : list Z) :
  length bytes = 16%nat → Forall (is_digit 256) bytes → length dv = 25%nat →
  cb bytes 16 256 dv 25 36 = Some (0, digits_of 36 25 (value 256 bytes)).
Proof.
  intros Hlen Hb Hdv.
  destruct (Hcb bytes 16 256 dv 25 36) as (err & out' & Heq & Hc).
  { unfold precondition. rewrite Hlen, Hdv. repeat split; try lia. done. }
  destruct (bytes_fit bytes Hlen Hb) as [Hv H36].
  destruct (converted_fits _ _ _ _ _ _ Hc ltac:(lia)) as [-> ->].
  rewrite Heq. change (Z.to_nat 25) with 25%nat. reflexivity.
Qed.

Lemma encode_spec (bytes : list Z) :
  length bytes = 16%nat → Forall (is_digit 256) bytes →
  encode cb DIGITS bytes = Some (encoded DIGITS bytes).
Proof.
  intros Hlen Hb. unfold encode.
  rewrite (encode_converts bytes (replicate 25 0) Hlen Hb) by done.
  change (0 =? 0) with true. cbv iota. unfold encoded.
  (* both sides list the same 25 characters *)
  reflexivity.
Qed.

Lemma encoded_char_at (bytes : list Z) (k : nat) :
  (k < 25)%nat →
  ∃ d, digits_of 36 25 (value 256 bytes) !! k = Some d
       ∧ is_digit 36 d
       ∧ char_at (encoded DIGITS bytes) k = code_of (digit_char DIGITS d).
Proof.
  intros Hk. set (ds := digits_of 36 25 (value 256 bytes)).
  assert (Hds : length ds = 25%nat) by apply length_digits_of.
  destruct (lookup_lt_is_Some_2 ds k ltac:(lia)) as [d Hd].
  exists d. split; [done|]. split.
  - eapply Forall_forall; [apply (digits_of_is_digit 36 25); lia|].
    apply list_elem_of_In. eapply list_elem_of_lookup_2. exact Hd.
  - unfold encoded. fold ds.
    rewrite char_at_string_of_list, list_lookup_fmap, Hd. done.
Qed.

Lemma encoded_terminator (bytes : list Z) :
  char_at (encoded DIGITS bytes) 25 = 0.
Proof.
  unfold encoded. rewrite char_at_string_of_list.
  rewrite lookup_ge_None_2; [done|].
  by rewrite length_map, length_digits_of.
Qed.

Lemma encoded_case (bytes : list Z) (k : nat) :
  (k < 25)%nat → in_case (char_at (encoded DIGITS bytes) k) = true.
Proof.
  intros Hk. destruct (encoded_char_at bytes k Hk) as (d & _ & Hd & ->).
  by destruct (Hdigits d Hd).
Qed.

Lemma encoded_all_base36 (bytes : list Z) :
  all_base36 (encoded DIGITS bytes) = true.
Proof.
  unfold all_base36. apply forallb_forall. intros k Hk. apply in_seq in Hk.
  destruct (encoded_char_at bytes k ltac:(lia)) as (d & _ & Hd & ->).
  by destruct (Hdigits d Hd) as (_ & ? & _).
Qed.

Lemma encoded_text_digits (bytes : list Z) :
  text_digits (encoded DIGITS bytes) = digits_of 36 25 (value 256 bytes).
Proof.
  set (ds := digits_of 36 25 (value 256 bytes)).
  assert (Hds : length ds = 25%nat) by apply length_digits_of.
  rewrite <- (map_nth_seq ds), Hds. unfold text_digits.
  apply map_ext_in. intros k Hk. apply in_seq in Hk.
  destruct (encoded_char_at bytes k ltac:(lia)) as (d & Hk' & Hd & ->).
  fold ds in Hk'. rewrite nth_lookup, Hk'. simpl.
  by destruct (Hdigits d Hd) as (_ & _ & ?).
Qed.

Lemma decode_encoded (bytes out : list Z) :
  length bytes = 16%nat → Forall (is_digit 256) bytes → length out = 16%nat →
  decode cb (encoded DIGITS bytes) out = Some (0, bytes).
Proof.
  intros Hlen Hb Hout.
  destruct (bytes_fit bytes Hlen Hb) as [Hv H36].
  assert (Hnum : numeral (encoded DIGITS bytes) = value 256 bytes).
  { unfold numeral. rewrite encoded_text_digits.
    apply value_digits_of; [lia|]. change (Z.of_nat 25) with 25. lia. }
  rewrite (decode_in_range _ out (encoded_all_base36 bytes)
             (encoded_terminator bytes) Hout) by (rewrite Hnum; lia).
  rewrite Hnum. do 2 f_equal.
  rewrite <- Hlen at 1. apply digits_of_value; [lia|done].
Qed.

End CodecProps.

(** ** Letter case *)

Lemma same_digit_refl (c : Z) : same_digit c c.
Proof. by repeat split. Qed.

Lemma swap_case_same_digit (a : ascii) :
  same_digit (code_of a) (code_of (swap_case a)).
Proof.
  destruct a as [[] [] [] [] [] [] [] []];
    vm_compute; repeat split; reflexivity.
Qed.

Lemma case_variant_char_at (s t : string) :
  case_variant s t → ∀ k, same_digit (char_at s k) (char_at t k).
Proof.
  revert t. induction s as [|a s IH]; intros [|b t] H k;
    try contradiction.
  - apply same_digit_refl.
  - destruct H as [Hb Ht]. destruct k as [|k].
    + unfold char_at. simpl. destruct Hb as [->| ->];
        [apply same_digit_refl|apply swap_case_same_digit].
    + apply (IH t Ht k).
Qed.

Lemma case_variant_map (f : ascii → ascii) (s : string) :
  (∀ c, f c = c ∨ f c = swap_case c) → case_variant s (map_string f s).
Proof. intros Hf. induction s as [|a s IH]; simpl; auto. Qed.

Lemma case_variant_upper (s : string) : case_variant s (map_string to_upper s).
Proof.
  apply case_variant_map. intros c. unfold to_upper.
  destruct (_ && _); auto.
Qed.

Lemma case_variant_lower (s : string) : case_variant s (map_string to_lower s).
Proof.
  apply case_variant_map. intros c. unfold to_lower.
  destruct (_ && _); auto.
Qed.

Lemma read_digits_ext (s t : string) (n i : nat) (dv : list Z) :
  (∀ k, (k < i + n)%nat → same_digit (char_at s k) (char_at t k)) →
  read_digits s n i dv = read_digits t n i dv.
Proof.
  revert i dv. induction n as [|n IH]; intros i dv H; [done|].
  cbn [read_digits]. destruct (H i ltac:(lia)) as (Hr & Hn & _).
  unfold rejected in Hr. rewrite Hr, Hn.
  rewrite IH; [done|]. intros k Hk. apply H. lia.
Qed.

(** [decode] looks at the first 26 characters only. *)
Lemma decode_ext
    (cb : list Z → Z → Z → list Z → Z → Z → option (Z * list Z))
    (s t : string) (out : list Z) :
  (∀ k, (k ≤ 25)%nat → same_digit (char_at s k) (char_at t k)) →
  decode cb s out = decode cb t out.
Proof.
  intros H. unfold decode.
  rewrite (read_digits_ext s t) by (intros k Hk; apply H; lia).
  destruct (H 25%nat ltac:(lia)) as (_ & _ & ->). done.
Qed.

Lemma get_append_l (s x : string) (k : nat) :
  (k < String.length s)%nat →
  String.get k (String.append s x) = String.get k s.
Proof.
  revert k. induction s as [|a s IH]; intros k Hk; simpl in *; [lia|].
  destruct k as [|k]; [done|]. apply IH. lia.
Qed.

Lemma get_append_at (s rest : string) (c : ascii) :
  String.get (String.length s) (String.append s (String c rest)) = Some c.
Proof. induction s as [|a s IH]; simpl; auto. Qed.

Lemma get_length_none (s : string) : String.get (String.length s) s = None.
Proof. induction s as [|a s IH]; simpl; auto. Qed.

(** The model of C strings is adequate: [decode] gives the same result on a
    string and on that string followed by an explicit NUL and any further
    bytes, so nothing behind the terminator is ever looked at. *)
Lemma decode_ignores_after_terminator
    (cb : list Z → Z → Z → list Z → Z → Z → option (Z * list Z))
    (s rest : string) (out : list Z) :
  decode cb (String.append s (String zero rest)) out = decode cb s out.
Proof.
  assert (Hlow : ∀ k, (k < String.length s)%nat →
                   char_at (String.append s (String zero rest)) k
                   = char_at s k).
  { intros k Hk. unfold char_at. by rewrite get_append_l. }
  assert (Hat : char_at (String.append s (String zero rest)) (String.length s)
                = 0 ∧ char_at s (String.length s) = 0).
  { unfold char_at. by rewrite get_append_at, get_length_none. }
  destruct (le_lt_dec 25 (String.length s)) as [Hlong|Hshort].
  - apply decode_ext. intros k Hk.
    destruct (decide (k = String.length s)) as [->|Hne].
    + destruct Hat as [-> ->]. apply same_digit_refl.
    + rewrite Hlow by lia. apply same_digit_refl.
  - assert (Hrej : ∀ t, char_at t (String.length s) = 0 →
                     all_base36 t = false).
    { intros t Ht. unfold all_base36.
      destruct (forallb _ _) eqn:Hall; [|done].
      rewrite forallb_forall in Hall.
      specialize (Hall (String.length s) ltac:(apply in_seq; lia)).
      rewrite Ht in Hall. done. }
    destruct Hat as [H1 H2].
    rewrite !decode_invalid_char by (apply Hrej; done). done.
Qed.

Lemma length_string_of_list (l : list ascii) :
  String.length (string_of_list_ascii l) = length l.
Proof. induction l; simpl; auto. Qed.

(** ** The test vectors of the two files *)

Example naive_encode_sample :
  Naive.encode sample_bytes = Some "0372HG16CSMSM50L8DIKCVUKC"%string.
Proof. vm_compute. reflexivity. Qed.

Example refined_encode_sample :
  Refined.encode sample_bytes = Some "0372hg16csmsm50l8dikcvukc"%string.
Proof. vm_compute. reflexivity. Qed.

Example refined_decode_max :
  Refined.decode "f5lxx1zz5pnorynqglhzmsp33" (replicate 16 7)
  = Some (0, max_bytes).
Proof. vm_compute. reflexivity. Qed.

Example refined_decode_short :
  Refined.decode "0" (replicate 16 7) = Some (-1, replicate 16 7).
Proof. vm_compute. reflexivity. Qed.

Example naive_decode_long :
  Naive.decode "00000000000000000000000000" (replicate 16 7)
  = Some (-1, replicate 16 7).
Proof. vm_compute. reflexivity. Qed.

Example refined_decode_plus :
  Refined.decode "f5lxx1zz5pn+rynqglhzmsp33" (replicate 16 7)
  = Some (-1, replicate 16 7).
Proof. vm_compute. reflexivity. Qed.

(** A numeral above [2^128 - 1] fails after [out] has been overwritten. *)
Example naive_decode_above_max :
  Naive.decode "F5LXX1ZZ5PNORYNQGLHZMSP34" (replicate 16 7)
  = Some (-1, replicate 16 0).
Proof. vm_compute. reflexivity. Qed.

Example refined_decode_above_max :
  Refined.decode "f5lxx1zz5pnorynqglhzmsp34" (replicate 16 7)
  = Some (-1, replicate 16 0).
Proof. vm_compute. reflexivity. Qed.

(** * Main theorems *)

(** C1. For every 16-byte array [b], [encode] followed by [decode] succeeds
    and returns exactly [b], in either file. *)
Theorem decode_encode_roundtrip (b out : list Z) :
  is_bytes16 b → length out = 16%nat →
  (∃ t, Naive.encode b = Some t
        ∧ Naive.decode t out = Some (0, b))
  ∧ (∃ t, Refined.encode b = Some t
          ∧ Refined.decode t out = Some (0, b)).
Proof.
  intros [Hlen Hb] Hout. split.
  - exists (encoded Naive.DIGITS b). split.
    + apply (encode_spec _ _ naive_conversion_contract); done.
    + apply (decode_encoded _ _ _ naive_conversion_contract naive_digits_ok);
        done.
  - exists (encoded Refined.DIGITS b). split.
    + apply (encode_spec _ _ refined_conversion_contract); done.
    + apply (decode_encoded _ _ _ refined_conversion_contract
               refined_digits_ok); done.
Qed.

Lemma decode_encode_roundtrip_witness :
  is_bytes16 sample_bytes ∧ length (replicate 16 7) = 16%nat
  ∧ (∃ t, Naive.encode sample_bytes = Some t
          ∧ Naive.decode t (replicate 16 7) = Some (0, sample_bytes))
  ∧ (∃ t, Refined.encode sample_bytes = Some t
          ∧ Refined.decode t (replicate 16 7) = Some (0, sample_bytes)).
Proof.
  assert (H : is_bytes16 sample_bytes).
  { split; [reflexivity|]. repeat constructor; unfold is_digit; lia. }
  split; [exact H|]. split; [reflexivity|].
  apply (decode_encode_roundtrip sample_bytes (replicate 16 7) H).
  reflexivity.
Defined.

(** C2. Under the precondition, when the input value is below
    [out_base ^ out_len], [convert_base] succeeds and leaves in [out] the
    [out_len]-digit numeral of that value in [out_base], most significant
    digit first and zero-padded on the left; in either file. *)
Theorem convert_base_correct (in_ : list Z) (in_len in_base : Z)
    (out : list Z) (out_len out_base : Z) :
  precondition in_ in_len in_base out out_len out_base →
  value in_base in_ < out_base ^ out_len →
  let res := digits_of out_base (Z.to_nat out_len) (value in_base in_) in
  Naive.convert_base in_ in_len in_base out out_len out_base = Some (0, res)
  ∧ Refined.convert_base in_ in_len in_base out out_len out_base
    = Some (0, res)
  ∧ length res = length out
  ∧ Forall (is_digit out_base) res
  ∧ value out_base res = value in_base in_.
Proof.
  intros Hpre Hlt res.
  destruct (naive_conversion_contract _ _ _ _ _ _ Hpre)
    as (e1 & o1 & -> & H1).
  destruct (refined_conversion_contract _ _ _ _ _ _ Hpre)
    as (e2 & o2 & -> & H2).
  destruct (converted_fits _ _ _ _ _ _ H1 Hlt) as [-> ->].
  destruct (converted_fits _ _ _ _ _ _ H2 Hlt) as [-> ->].
  destruct Hpre as (Hib & Hob & Hin & Hil & Hol).
  split; [done|]. split; [done|]. subst res. split; [|split].
  - rewrite length_digits_of. lia.
  - apply digits_of_is_digit. lia.
  - apply value_digits_of; [lia|].
    pose proof (value_bounds in_base in_ ltac:(lia) Hin).
    rewrite Z2Nat.id by lia. lia.
Qed.

Lemma convert_base_correct_witness :
  precondition [1; 0; 1; 1] 4 2 [9; 9; 9] 3 3
  ∧ value 2 [1; 0; 1; 1] < 3 ^ 3
  ∧ Naive.convert_base [1; 0; 1; 1] 4 2 [9; 9; 9] 3 3 = Some (0, [1; 0; 2])
  ∧ Refined.convert_base [1; 0; 1; 1] 4 2 [9; 9; 9] 3 3 = Some (0, [1; 0; 2]).
Proof.
  assert (H : precondition [1; 0; 1; 1] 4 2 [9; 9; 9] 3 3).
  { unfold precondition. repeat split; try lia.
    repeat constructor; unfold is_digit; lia. }
  assert (Hlt : value 2 [1; 0; 1; 1] < 3 ^ 3) by (vm_compute; reflexivity).
  split; [exact H|]. split; [exact Hlt|].
  destruct (convert_base_correct _ _ _ _ _ _ H Hlt) as (H1 & H2 & _).
  split; [exact H1|exact H2].
Defined.

(** C3. Under the precondition the refined conversion (words of several
    input digits in a 64-bit carry, early exit from the inner loop) returns
    the status of the naive one and, on success, the same output digits. *)
Theorem refined_matches_naive (in_ : list Z) (in_len in_base : Z)
    (out : list Z) (out_len out_base : Z) :
  precondition in_ in_len in_base out out_len out_base →
  ∃ err out_naive out_refined,
    Naive.convert_base in_ in_len in_base out out_len out_base
    = Some (err, out_naive)
    ∧ Refined.convert_base in_ in_len in_base out out_len out_base
      = Some (err, out_refined)
    ∧ (err = 0 ∨ err = -1)
    ∧ (err = 0 → out_refined = out_naive).
Proof.
  intros Hpre.
  destruct (naive_conversion_contract _ _ _ _ _ _ Hpre)
    as (e1 & o1 & -> & H1).
  destruct (refined_conversion_contract _ _ _ _ _ _ Hpre)
    as (e2 & o2 & -> & H2).
  destruct (Z.lt_ge_cases (value in_base in_) (out_base ^ out_len))
    as [Hlt|Hge].
  - destruct (converted_fits _ _ _ _ _ _ H1 Hlt) as [-> ->].
    destruct (converted_fits _ _ _ _ _ _ H2 Hlt) as [-> ->].
    eexists _, _, _. repeat split; auto.
  - rewrite (converted_overflow _ _ _ _ _ _ H1 Hge).
    rewrite (converted_overflow _ _ _ _ _ _ H2 Hge).
    eexists _, _, _. repeat split; auto. lia.
Qed.

Lemma refined_matches_naive_witness :
  precondition sample_bytes 16 256 (replicate 25 0) 25 36
  ∧ ∃ err out_naive out_refined,
      Naive.convert_base sample_bytes 16 256 (replicate 25 0) 25 36
      = Some (err, out_naive)
      ∧ Refined.convert_base sample_bytes 16 256 (replicate 25 0) 25 36
        = Some (err, out_refined)
      ∧ (err = 0 ∨ err = -1)
      ∧ (err = 0 → out_refined = out_naive).
Proof.
  assert (H : precondition sample_bytes 16 256 (replicate 25 0) 25 36).
  { unfold precondition. repeat split; try lia.
    repeat constructor; unfold is_digit; lia. }
  split; [exact H|]. apply (refined_matches_naive _ _ _ _ _ _ H).
Defined.

Lemma decodes_iff_acceptable_with
    (cb : list Z → Z → Z → list Z → Z → Z → option (Z * list Z))
    (text : string) (out : list Z) :
  conversion_contract cb → length out = 16%nat →
  decodes_iff_acceptable (decode cb) text out.
Proof.
  intros Hcb Hout. unfold decodes_iff_acceptable, acceptable.
  rewrite <- pow_256_16.
  destruct (all_base36 text) eqn:Hall; cbn [andb].
  2:{ split; [done|]. intros _. exists out. by apply decode_invalid_char. }
  destruct (Z.eqb_spec (char_at text 25) 0) as [Hnul|Hnul]; cbn [andb].
  2:{ split; [done|]. intros _. exists out. by apply decode_no_terminator. }
  destruct (Z.leb_spec (numeral text) (256 ^ 16 - 1)) as [Hle|Hgt].
  - split; [|done]. intros _. apply decode_in_range; try done. lia.
  - split; [done|]. intros _. apply decode_out_of_range; try done. lia.
Qed.

(** C4. [decode] succeeds, with the 16 bytes of the value, exactly when
    the first 25 characters are of [0-9A-Za-z], the 26th is NUL and the
    base-36 value is at most [2^128 - 1]; in every other case it returns
    the failure status. *)
Theorem decode_accepts_iff (text : string) (out : list Z) :
  length out = 16%nat →
  decodes_iff_acceptable Naive.decode text out
  ∧ decodes_iff_acceptable Refined.decode text out.
Proof.
  intros Hout. split.
  - by apply decodes_iff_acceptable_with; [apply naive_conversion_contract|].
  - by apply decodes_iff_acceptable_with; [apply refined_conversion_contract|].
Qed.

Lemma decode_accepts_iff_witness :
  length (replicate 16 7) = 16%nat
  ∧ acceptable "f5lxx1zz5pnorynqglhzmsp33" = true
  ∧ Naive.decode "f5lxx1zz5pnorynqglhzmsp33" (replicate 16 7)
    = Some (0, max_bytes)
  ∧ acceptable "f5lxx1zz5pnorynqglhzmsp34" = false
  ∧ ∃ out', Refined.decode "f5lxx1zz5pnorynqglhzmsp34" (replicate 16 7)
            = Some (-1, out').
Proof.
  assert (Hlen : length (replicate 16 7) = 16%nat) by reflexivity.
  assert (Hyes : acceptable "f5lxx1zz5pnorynqglhzmsp33" = true)
    by (vm_compute; reflexivity).
  assert (Hno : acceptable "f5lxx1zz5pnorynqglhzmsp34" = false)
    by (vm_compute; reflexivity).
  split; [exact Hlen|]. split; [exact Hyes|].
  destruct (decode_accepts_iff "f5lxx1zz5pnorynqglhzmsp33" _ Hlen)
    as [[H1 _] _].
  destruct (decode_accepts_iff "f5lxx1zz5pnorynqglhzmsp34" _ Hlen)
    as [_ [_ H2]].
  split; [|split; [exact Hno|exact (H2 Hno)]].
  rewrite (H1 Hyes). vm_compute. reflexivity.
Defined.

(** C5. Under the precondition [convert_base] returns the overflow status
    exactly when the input value is at least [out_base ^ out_len], and
    success otherwise; in either file. *)
Theorem convert_base_overflow_iff (in_ : list Z) (in_len in_base : Z)
    (out : list Z) (out_len out_base : Z) :
  precondition in_ in_len in_base out out_len out_base →
  (∃ err out',
     Naive.convert_base in_ in_len in_base out out_len out_base
     = Some (err, out')
     ∧ (err = -1 ↔ out_base ^ out_len ≤ value in_base in_)
     ∧ (err = 0 ↔ value in_base in_ < out_base ^ out_len))
  ∧ (∃ err out',
       Refined.convert_base in_ in_len in_base out out_len out_base
       = Some (err, out')
       ∧ (err = -1 ↔ out_base ^ out_len ≤ value in_base in_)
       ∧ (err = 0 ↔ value in_base in_ < out_base ^ out_len)).
Proof.
  intros Hpre.
  assert (Hiff : ∀ err out',
             converted in_ in_base out_len out_base err out' →
             (err = -1 ↔ out_base ^ out_len ≤ value in_base in_)
             ∧ (err = 0 ↔ value in_base in_ < out_base ^ out_len)).
  { intros err out' [_ H].
    destruct (Z.ltb_spec (value in_base in_) (out_base ^ out_len)).
    - destruct H as [-> _]. lia.
    - subst err. lia. }
  split.
  - destruct (naive_conversion_contract _ _ _ _ _ _ Hpre)
      as (err & out' & -> & H).
    exists err, out'. split; [done|]. by apply (Hiff err out').
  - destruct (refined_conversion_contract _ _ _ _ _ _ Hpre)
      as (err & out' & -> & H).
    exists err, out'. split; [done|]. by apply (Hiff err out').
Qed.

Lemma convert_base_overflow_iff_witness :
  precondition [3; 5] 2 36 [7] 1 256
  ∧ Naive.convert_base [3; 5] 2 36 [7] 1 256 = Some (0, [113])
  ∧ Refined.convert_base [3; 5] 2 36 [7] 1 256 = Some (0, [113])
  ∧ value 36 [3; 5] < 256 ^ 1.
Proof.
  assert (H : precondition [3; 5] 2 36 [7] 1 256).
  { unfold precondition. repeat split; try lia.
    repeat constructor; unfold is_digit; lia. }
  split; [exact H|].
  destruct (convert_base_overflow_iff _ _ _ _ _ _ H)
    as [(e1 & o1 & H1 & _ & H1') (e2 & o2 & H2 & _ & H2')].
  split; [reflexivity|]. split; [reflexivity|].
  apply H1'. vm_compute in H1. congruence.
Defined.

(** C6, as the spec states it, fails on [base36_128.c]: its [DIGITS] table is
    upper-case, so the all-ones value prints with upper-case letters, as the
    test vector of that file expects. *)
Lemma encode_lowercase_counterexample :
  Naive.encode max_bytes = Some "F5LXX1ZZ5PNORYNQGLHZMSP33"%string
  ∧ matches_class is_lower_code "F5LXX1ZZ5PNORYNQGLHZMSP33" = false.
Proof. split; vm_compute; reflexivity. Qed.

(** C6, amended. For every 16-byte input, [encode] prints 25 characters of
    the alphabet of its [DIGITS] table: [0-9a-z] in the revised file,
    [0-9A-Z] in [base36_128.c]. *)
Theorem encode_alphabet (b : list Z) :
  is_bytes16 b →
  (∃ t, Refined.encode b = Some t
        ∧ matches_class is_lower_code t = true)
  ∧ (∃ t, Naive.encode b = Some t
          ∧ matches_class is_upper_code t = true).
Proof.
  intros [Hlen Hb].
  assert (Hm : ∀ DIGITS in_case, digits_table_ok DIGITS in_case →
                 matches_class in_case (encoded DIGITS b) = true).
  { intros DIGITS in_case Hok. unfold matches_class.
    apply andb_true_intro. split.
    - unfold encoded.
      rewrite length_string_of_list, length_map, length_digits_of. done.
    - apply forallb_forall. intros k Hk. apply in_seq in Hk.
      apply (encoded_case DIGITS in_case Hok). lia. }
  split.
  - exists (encoded Refined.DIGITS b). split.
    + apply (encode_spec _ _ refined_conversion_contract); done.
    + apply Hm, refined_digits_ok.
  - exists (encoded Naive.DIGITS b). split.
    + apply (encode_spec _ _ naive_conversion_contract); done.
    + apply Hm, naive_digits_ok.
Qed.

Lemma encode_alphabet_witness :
  is_bytes16 max_bytes
  ∧ (∃ t, Refined.encode max_bytes = Some t
          ∧ matches_class is_lower_code t = true)
  ∧ (∃ t, Naive.encode max_bytes = Some t
          ∧ matches_class is_upper_code t = true).
Proof.
  assert (H : is_bytes16 max_bytes).
  { split; [reflexivity|]. repeat constructor; unfold is_digit; lia. }
  split; [exact H|]. apply (encode_alphabet max_bytes H).
Defined.

(** C7. [decode] is case-insensitive: a text and the same text with any of
    its letters replaced by their opposite-case counterparts decode to the
    same status and the same bytes. *)
Theorem decode_case_insensitive (text text' : string) (out : list Z) :
  case_variant text text' →
  Naive.decode text' out = Naive.decode text out
  ∧ Refined.decode text' out = Refined.decode text out.
Proof.
  intros H. pose proof (case_variant_char_at _ _ H) as Hk.
  split; symmetry; apply decode_ext; auto.
Qed.

Lemma decode_case_insensitive_witness :
  case_variant "0372hg16csmsm50l8dikcvukc" "0372Hg16CSMsm50l8dIKCvukC"
  ∧ Naive.decode "0372Hg16CSMsm50l8dIKCvukC" (replicate 16 7)
    = Some (0, sample_bytes)
  ∧ Refined.decode "0372Hg16CSMsm50l8dIKCvukC" (replicate 16 7)
    = Some (0, sample_bytes).
Proof.
  assert (H : case_variant "0372hg16csmsm50l8dikcvukc"
                "0372Hg16CSMsm50l8dIKCvukC").
  { simpl. repeat split; (left; reflexivity) || (right; reflexivity). }
  split; [exact H|].
  destruct (decode_case_insensitive _ _ (replicate 16 7) H) as [H1 H2].
  split; [rewrite H1|rewrite H2]; vm_compute; reflexivity.
Defined.

(** The upper-cased and the lower-cased text are such variants. *)
Corollary decode_upper_lower (text : string) (out : list Z) :
  Refined.decode (map_string to_upper text) out
  = Refined.decode text out
  ∧ Refined.decode (map_string to_lower text) out
    = Refined.decode text out
  ∧ Naive.decode (map_string to_upper text) out
    = Naive.decode text out
  ∧ Naive.decode (map_string to_lower text) out
    = Naive.decode text out.
Proof.
  pose proof (case_variant_char_at _ _ (case_variant_upper text)) as Hu.
  pose proof (case_variant_char_at _ _ (case_variant_lower text)) as Hl.
  repeat split; symmetry; apply decode_ext; auto.
Qed.

(** C8. [encode] cannot fail: for every 16-byte input, whatever
    [digit_values] holds beforehand, the conversion of 16 base-256 digits
    into 25 base-36 digits succeeds, so the assertion holds. *)
Theorem encode_never_fails (b dv : list Z) :
  is_bytes16 b → length dv = 25%nat →
  Naive.convert_base b 16 256 dv 25 36
  = Some (0, digits_of 36 25 (value 256 b))
  ∧ Refined.convert_base b 16 256 dv 25 36
    = Some (0, digits_of 36 25 (value 256 b))
  ∧ value 256 b < 2 ^ 128 ∧ 2 ^ 128 < 36 ^ 25
  ∧ is_Some (Naive.encode b) ∧ is_Some (Refined.encode b).
Proof.
  intros [Hlen Hb] Hdv.
  split; [by apply (encode_converts _ naive_conversion_contract)|].
  split; [by apply (encode_converts _ refined_conversion_contract)|].
  rewrite <- pow_256_16.
  destruct (bytes_fit b Hlen Hb) as [Hv H36].
  split; [lia|]. split; [done|]. split.
  - exists (encoded Naive.DIGITS b).
    apply (encode_spec _ _ naive_conversion_contract); done.
  - exists (encoded Refined.DIGITS b).
    apply (encode_spec _ _ refined_conversion_contract); done.
Qed.

Lemma encode_never_fails_witness :
  is_bytes16 max_bytes ∧ length (replicate 25 9) = 25%nat
  ∧ Naive.convert_base max_bytes 16 256 (replicate 25 9) 25 36
    = Some (0, digits_of 36 25 (value 256 max_bytes))
  ∧ Refined.convert_base max_bytes 16 256 (replicate 25 9) 25 36
    = Some (0, digits_of 36 25 (value 256 max_bytes)).
Proof.
  assert (H : is_bytes16 max_bytes).
  { split; [reflexivity|]. repeat constructor; unfold is_digit; lia. }
  split; [exact H|]. split; [reflexivity|].
  destruct (encode_never_fails max_bytes (replicate 25 9) H eq_refl)
    as (H1 & H2 & _).
  split; [exact H1|exact H2].
Defined.

(** C9. Under the precondition every value assigned to [carry] fits its
    type: in the naive loops it is at most [in_base * out_base - 1], which is
    at most 65535; in the refined loops it is at most
    [word_base * out_base - 1], which the selected word keeps at most
    [UINT64_MAX]. *)
Theorem carry_within_type (in_ : list Z) (in_len in_base : Z)
    (out : list Z) (out_len out_base : Z) :
  precondition in_ in_len in_base out out_len out_base →
  (∃ err out' tr,
     Naive.convert_base_run in_ in_len in_base out out_len out_base
     = (err, out', tr)
     ∧ Forall (λ v, 0 ≤ v ≤ in_base * out_base - 1) tr
     ∧ in_base * out_base - 1 ≤ 65535
     ∧ 65535 < 2 ^ UINT_FAST16_BITS)
  ∧ (∃ err out' tr word_len word_base,
       Refined.select_word in_base out_base = Some (word_len, word_base)
       ∧ word_base = in_base ^ word_len
       ∧ Refined.convert_base_run in_ in_len in_base out out_len out_base
         = Some (err, out', tr)
       ∧ Forall (λ v, 0 ≤ v ≤ word_base * out_base - 1) tr
       ∧ word_base * out_base - 1 ≤ UINT64_MAX).
Proof.
  intros Hpre. split.
  - destruct (naive_convert_base_run_spec _ _ _ _ _ _ Hpre)
      as (err & out' & tr & Heq & _ & Htr).
    destruct Hpre as (Hib & Hob & _).
    exists err, out', tr. split; [done|]. split; [exact Htr|].
    split; [nia|reflexivity].
  - destruct (refined_convert_base_run_spec _ _ _ _ _ _ Hpre)
      as (err & out' & tr & wl & wb & Heq & _ & Hsel & Htr).
    destruct Hpre as (Hib & Hob & _).
    destruct (select_word_spec in_base out_base Hib Hob)
      as (wl' & wb' & Hsel' & _ & Hwb & Hfit & _).
    rewrite Hsel in Hsel'. injection Hsel' as <- <-.
    exists err, out', tr, wl, wb. split; [done|]. split; [done|].
    split; [done|]. split; [exact Htr|lia].
Qed.

Lemma carry_within_type_witness :
  precondition [1; 0; 1; 1] 4 2 [9; 9; 9] 3 3
  ∧ Naive.convert_base_run [1; 0; 1; 1] 4 2 [9; 9; 9] 3 3
    = (0, [1; 0; 2],
       [1; 1; 0; 0; 0; 0; 0; 0; 2; 0; 0; 0; 0; 0;
        1; 5; 1; 1; 0; 0; 0; 1; 5; 1; 3; 1; 1; 0])
  ∧ Refined.convert_base_run [1; 0; 1; 1] 4 2 [9; 9; 9] 3 3
    = Some (0, [1; 0; 2], [1; 2; 5; 11; 11; 3; 3; 1; 1; 0])
  ∧ ∃ tr, Forall (λ v, 0 ≤ v ≤ 2 * 3 - 1) tr ∧ length tr = 28%nat.
Proof.
  assert (H : precondition [1; 0; 1; 1] 4 2 [9; 9; 9] 3 3).
  { unfold precondition. repeat split; try lia.
    repeat constructor; unfold is_digit; lia. }
  split; [exact H|]. split; [reflexivity|]. split; [reflexivity|].
  destruct (carry_within_type _ _ _ _ _ _ H)
    as [(err & out' & tr & Heq & Htr & _) _].
  exists tr. split; [exact Htr|].
  vm_compute in Heq. injection Heq as _ _ <-. reflexivity.
Defined.

(** C10. When [decode] fails on a character outside the alphabet among the
    first 25, or on a 26th character that is not NUL, [out] is left as it
    was. *)
Theorem decode_failure_frame (text : string) (out : list Z) :
  all_base36 text = false ∨ char_at text 25 ≠ 0 →
  Naive.decode text out = Some (-1, out)
  ∧ Refined.decode text out = Some (-1, out).
Proof.
  intros [H|H]; split.
  - by apply decode_invalid_char.
  - by apply decode_invalid_char.
  - by apply decode_no_terminator.
  - by apply decode_no_terminator.
Qed.

Lemma decode_failure_frame_witness :
  (all_base36 "f5lxx1zz5pn+rynqglhzmsp33" = false
   ∨ char_at "f5lxx1zz5pn+rynqglhzmsp33" 25 ≠ 0)
  ∧ Naive.decode "f5lxx1zz5pn+rynqglhzmsp33" [1; 2; 3]
    = Some (-1, [1; 2; 3])
  ∧ Refined.decode "f5lxx1zz5pn+rynqglhzmsp33" [1; 2; 3]
    = Some (-1, [1; 2; 3]).
Proof.
  assert (H : all_base36 "f5lxx1zz5pn+rynqglhzmsp33" = false
              ∨ char_at "f5lxx1zz5pn+rynqglhzmsp33" 25 ≠ 0)
    by (left; reflexivity).
  split; [exact H|].
  apply (decode_failure_frame "f5lxx1zz5pn+rynqglhzmsp33" [1; 2; 3] H).
Defined.

(** * Further properties *)

(** ** [convert_base] writes below [out_len] only *)

Lemma inner_step_length (bits mult out_base : Z) (j : nat)
    (out : list Z) (c : Z) (tr : list Z) :
  length (inner_step bits mult out_base j out c tr).1.1 = length out.
Proof. unfold inner_step. simpl. apply length_insert. Qed.

Lemma inner_step_app (bits mult out_base : Z) (j : nat)
    (hi lo : list Z) (c : Z) (tr : list Z) :
  (j < length hi)%nat →
  inner_step bits mult out_base j (hi ++ lo) c tr
  = let '(o, c', tr') := inner_step bits mult out_base j hi c tr in
    (o ++ lo, c', tr').
Proof.
  intros Hj. unfold inner_step.
  rewrite app_nth1 by lia. rewrite insert_app_l by lia. done.
Qed.

Lemma zero_out_frame (n : nat) (hi lo : list Z) :
  (n ≤ length hi)%nat → zero_out n 0 (hi ++ lo) = zero_out n 0 hi ++ lo.
Proof.
  intros Hn.
  pose proof (zero_out_app [] (hi ++ lo) n) as H1.
  pose proof (zero_out_app [] hi n Hn) as H2.
  simpl in H1, H2. rewrite H1, H2 by (rewrite length_app; lia).
  rewrite drop_app_le by lia. by rewrite <- (assoc_L (++)).
Qed.

Lemma zero_out_length (n : nat) (out : list Z) :
  (n ≤ length out)%nat → length (zero_out n 0 out) = length out.
Proof.
  intros Hn. pose proof (zero_out_app [] out n Hn) as H. simpl in H.
  rewrite H, length_app, length_replicate, length_drop. lia.
Qed.

Lemma naive_inner_loop_length (in_base out_base : Z) (j : nat)
    (out : list Z) (c : Z) (tr : list Z) :
  length (Naive.inner_loop in_base out_base j out c tr).1.1 = length out.
Proof.
  revert out c tr. induction j as [|j IH]; intros out c tr; [done|].
  rewrite naive_inner_loop_S.
  pose proof (inner_step_length UINT_FAST16_BITS in_base out_base j out c tr)
    as Hlen.
  destruct (inner_step _ _ _ _ _ _ _) as [[o c'] tr']. simpl in Hlen.
  rewrite IH. done.
Qed.

Lemma naive_inner_loop_frame (in_base out_base : Z) (j : nat)
    (hi lo : list Z) (c : Z) (tr : list Z) :
  (j ≤ length hi)%nat →
  Naive.inner_loop in_base out_base j (hi ++ lo) c tr
  = let '(o, c', tr') := Naive.inner_loop in_base out_base j hi c tr in
    (o ++ lo, c', tr').
Proof.
  revert hi c tr. induction j as [|j IH]; intros hi c tr Hj; [done|].
  rewrite !naive_inner_loop_S, inner_step_app by lia.
  pose proof (inner_step_length UINT_FAST16_BITS in_base out_base j hi c tr)
    as Hlen.
  destruct (inner_step _ _ _ _ _ _ _) as [[o c'] tr']. simpl in Hlen.
  apply IH. lia.
Qed.

Lemma naive_outer_loop_frame (in_ : list Z) (in_base : Z) (out_len : nat)
    (out_base : Z) (n i : nat) (hi lo tr : list Z) :
  (out_len ≤ length hi)%nat →
  Naive.outer_loop in_ in_base out_len out_base n i (hi ++ lo) tr
  = let '(err, o, tr') :=
      Naive.outer_loop in_ in_base out_len out_base n i hi tr in
    (err, o ++ lo, tr').
Proof.
  revert i hi tr. induction n as [|n IH]; intros i hi tr Hlen; [done|].
  cbn [Naive.outer_loop]. rewrite naive_inner_loop_frame by done.
  pose proof (naive_inner_loop_length in_base out_base out_len hi
                (wrap UINT_FAST16_BITS (nth i in_ 0)) (tr ++ [nth i in_ 0]))
    as Hl.
  destruct (Naive.inner_loop _ _ _ _ _ _) as [[o c'] tr']. simpl in Hl.
  destruct (c' =? 0); [|done]. apply IH. lia.
Qed.

Lemma refined_inner_loop_length (word_base out_base : Z) (j : nat)
    (out : list Z) (c used : Z) (tr : list Z) :
  length (Refined.inner_loop word_base out_base j out c used tr).1.1.1
  = length out.
Proof.
  revert out c tr. induction j as [|j IH]; intros out c tr; [done|].
  rewrite refined_inner_loop_S.
  pose proof (inner_step_length 64 word_base out_base j out c tr) as Hlen.
  destruct (inner_step _ _ _ _ _ _ _) as [[o c'] tr']. simpl in Hlen.
  destruct (_ && _); [done|]. rewrite IH. done.
Qed.

Lemma refined_inner_loop_frame (word_base out_base : Z) (j : nat)
    (hi lo : list Z) (c used : Z) (tr : list Z) :
  (j ≤ length hi)%nat →
  Refined.inner_loop word_base out_base j (hi ++ lo) c used tr
  = let '(o, c', used', tr') :=
      Refined.inner_loop word_base out_base j hi c used tr in
    (o ++ lo, c', used', tr').
Proof.
  revert hi c tr. induction j as [|j IH]; intros hi c tr Hj; [done|].
  rewrite !refined_inner_loop_S, inner_step_app by lia.
  pose proof (inner_step_length 64 word_base out_base j hi c tr) as Hlen.
  destruct (inner_step _ _ _ _ _ _ _) as [[o c'] tr']. simpl in Hlen.
  destruct (_ && _); [done|]. apply IH. lia.
Qed.

Lemma refined_outer_loop_frame (fuel : nat) (in_ : list Z) (in_len in_base : Z)
    (out_len : nat) (out_base word_len word_base i : Z)
    (hi lo : list Z) (used : Z) (tr : list Z) :
  (out_len ≤ length hi)%nat →
  Refined.outer_loop fuel in_ in_len in_base out_len out_base
    word_len word_base i (hi ++ lo) used tr
  = match Refined.outer_loop fuel in_ in_len in_base out_len out_base
            word_len word_base i hi used tr with
    | Some (err, o, tr') => Some (err, o ++ lo, tr')
    | None => None
    end.
Proof.
  revert i hi used tr.
  induction fuel as [|fuel IH]; intros i hi used tr Hlen; [done|].
  rewrite !refined_outer_loop_S.
  destruct (i <? in_len); [|done]. cbv zeta.
  destruct (Refined.read_word _ _ _ _ _ _) as [c tr1].
  rewrite refined_inner_loop_frame by done.
  pose proof (refined_inner_loop_length word_base out_base out_len hi c used tr1)
    as Hl.
  destruct (Refined.inner_loop _ _ _ _ _ _ _) as [[[o c'] used'] tr2].
  simpl in Hl. destruct (c' =? 0); [|done]. apply IH. lia.
Qed.

Lemma convert_base_keeps_tail (in_ : list Z) (in_len in_base : Z)
    (hi lo : list Z) (out_len out_base : Z) :
  Z.of_nat (length hi) = out_len →
  Naive.convert_base in_ in_len in_base (hi ++ lo) out_len out_base
  = with_tail lo (Naive.convert_base in_ in_len in_base hi out_len out_base)
  ∧ Refined.convert_base in_ in_len in_base (hi ++ lo) out_len out_base
    = with_tail lo
        (Refined.convert_base in_ in_len in_base hi out_len out_base).
Proof.
  intros Hlen. split.
  - unfold Naive.convert_base, Naive.convert_base_run.
    rewrite zero_out_frame, naive_outer_loop_frame
      by (rewrite ?zero_out_length; lia).
    by destruct (Naive.outer_loop _ _ _ _ _ _ _ _) as [[e o] t].
  - unfold Refined.convert_base, Refined.convert_base_run.
    destruct (Refined.select_word in_base out_base) as [[wl wb]|]; [|done].
    rewrite zero_out_frame, refined_outer_loop_frame
      by (rewrite ?zero_out_length; lia).
    by destruct (Refined.outer_loop _ _ _ _ _ _ _ _ _ _ _ _)
      as [[[e o] t]|].
Qed.

(** X1. [convert_base] leaves every element of [out] at or behind index
    [out_len] as it was, whatever it returns; in either file. *)
Theorem convert_base_frame (in_ : list Z) (in_len in_base : Z)
    (hi lo : list Z) (out_len out_base : Z) :
  Z.of_nat (length hi) = out_len →
  Naive.convert_base in_ in_len in_base (hi ++ lo) out_len out_base
  = with_tail lo (Naive.convert_base in_ in_len in_base hi out_len out_base)
  ∧ Refined.convert_base in_ in_len in_base (hi ++ lo) out_len out_base
    = with_tail lo
        (Refined.convert_base in_ in_len in_base hi out_len out_base).
Proof. apply convert_base_keeps_tail. Qed.

Lemma convert_base_frame_witness :
  Z.of_nat (length [9; 9; 9]) = 3
  ∧ Naive.convert_base [1; 0; 1; 1] 4 2 ([9; 9; 9] ++ [7; 8]) 3 3
    = Some (0, [1; 0; 2; 7; 8])
  ∧ Refined.convert_base [2; 2; 2; 2] 4 3 ([9; 9; 9] ++ [7; 8]) 3 2
    = Some (-1, [0; 0; 0; 7; 8]).
Proof.
  split; [reflexivity|].
  destruct (convert_base_frame [1; 0; 1; 1] 4 2 [9; 9; 9] [7; 8] 3 3 eq_refl)
    as [H1 _].
  destruct (convert_base_frame [2; 2; 2; 2] 4 3 [9; 9; 9] [7; 8] 3 2 eq_refl)
    as [_ H2].
  split; [rewrite H1|rewrite H2]; vm_compute; reflexivity.
Defined.

(** X2. [decode] leaves every element of [out] behind the first 16 as it
    was, whatever it returns; in either file. *)
Theorem decode_frame (text : string) (hi lo : list Z) :
  length hi = 16%nat →
  Naive.decode text (hi ++ lo) = with_tail lo (Naive.decode text hi)
  ∧ Refined.decode text (hi ++ lo) = with_tail lo (Refined.decode text hi).
Proof.
  intros Hlen.
  assert (Hgen : ∀ cb,
             (∀ dv, cb dv 25 36 (hi ++ lo) 16 256
                    = with_tail lo (cb dv 25 36 hi 16 256)) →
             decode cb text (hi ++ lo) = with_tail lo (decode cb text hi)).
  { intros cb Hcb. unfold decode.
    destruct (read_digits text 25 0 (replicate 25 0)) as [dv|]; [|done].
    destruct (negb (char_at text 25 =? 0)); [done|].
    rewrite Hcb. destruct (cb dv 25 36 hi 16 256) as [[err o]|]; [|done].
    simpl. by destruct (negb (err =? 0)). }
  split; apply Hgen; intros dv;
    by apply (convert_base_keeps_tail dv 25 36 hi lo 16 256); rewrite Hlen.
Qed.

Lemma decode_frame_witness :
  length (replicate 16 7) = 16%nat
  ∧ Naive.decode "F5LXX1ZZ5PNORYNQGLHZMSP33" (replicate 16 7 ++ [1; 2])
    = Some (0, max_bytes ++ [1; 2])
  ∧ Refined.decode "zzzzzzzzzzzzzzzzzzzzzzzzz" (replicate 16 7 ++ [1; 2])
    = Some (-1, [96; 21; 79; 195; 108; 191; 66; 119; 143; 35;
                 255; 255; 255; 255; 255; 255; 1; 2]).
Proof.
  split; [reflexivity|].
  destruct (decode_frame "F5LXX1ZZ5PNORYNQGLHZMSP33" (replicate 16 7) [1; 2]
              eq_refl) as [H1 _].
  destruct (decode_frame "zzzzzzzzzzzzzzzzzzzzzzzzz" (replicate 16 7) [1; 2]
              eq_refl) as [_ H2].
  split; [rewrite H1|rewrite H2]; vm_compute; reflexivity.
Defined.

(** X3. What [out] holds before the call has no effect on what
    [convert_base] returns or leaves in [out]; in either file and for any
    bases. *)
Theorem convert_base_ignores_out (in_ : list Z) (in_len in_base : Z)
    (out1 out2 : list Z) (out_len out_base : Z) :
  Z.of_nat (length out1) = out_len → length out2 = length out1 →
  Naive.convert_base in_ in_len in_base out1 out_len out_base
  = Naive.convert_base in_ in_len in_base out2 out_len out_base
  ∧ Refined.convert_base in_ in_len in_base out1 out_len out_base
    = Refined.convert_base in_ in_len in_base out2 out_len out_base.
Proof.
  intros H1 H2.
  assert (Hz : zero_out (Z.to_nat out_len) 0 out1
               = zero_out (Z.to_nat out_len) 0 out2).
  { replace (Z.to_nat out_len) with (length out1) by lia.
    rewrite zero_out_all. rewrite <- H2. by rewrite zero_out_all, H2. }
  unfold Naive.convert_base, Naive.convert_base_run,
    Refined.convert_base, Refined.convert_base_run.
  by rewrite Hz.
Qed.

Lemma convert_base_ignores_out_witness :
  Z.of_nat (length [9; 9; 9]) = 3 ∧ length [4; 5; 6] = length [9; 9; 9]
  ∧ Naive.convert_base [2; 2; 2; 2] 4 3 [9; 9; 9] 3 2
    = Naive.convert_base [2; 2; 2; 2] 4 3 [4; 5; 6] 3 2
  ∧ Refined.convert_base [2; 2; 2; 2] 4 3 [9; 9; 9] 3 2
    = Refined.convert_base [2; 2; 2; 2] 4 3 [4; 5; 6] 3 2.
Proof.
  split; [reflexivity|]. split; [reflexivity|].
  apply (convert_base_ignores_out [2; 2; 2; 2] 4 3 [9; 9; 9] [4; 5; 6] 3 2);
    reflexivity.
Defined.

(** ** Conversions between any two bases *)

Lemma convert_there_and_back
    (cb1 cb2 : list Z → Z → Z → list Z → Z → Z → option (Z * list Z))
    (in_ : list Z) (in_len in_base : Z)
    (out back : list Z) (out_len out_base : Z) :
  conversion_contract cb1 → conversion_contract cb2 →
  precondition in_ in_len in_base out out_len out_base →
  value in_base in_ < out_base ^ out_len →
  length back = length in_ →
  ∃ mid,
    cb1 in_ in_len in_base out out_len out_base = Some (0, mid)
    ∧ cb2 mid out_len out_base back in_len in_base = Some (0, in_).
Proof.
  intros H1 H2 Hpre Hlt Hback.
  destruct (H1 _ _ _ _ _ _ Hpre) as (e1 & mid & -> & Hc1).
  destruct (converted_fits _ _ _ _ _ _ Hc1 Hlt) as [-> Hmid].
  destruct Hpre as (Hib & Hob & Hin & Hil & Hol).
  exists mid. split; [done|].
  assert (Hmd : Forall (is_digit out_base) mid)
    by (rewrite Hmid; apply digits_of_is_digit; lia).
  assert (Hml : length mid = Z.to_nat out_len)
    by (rewrite Hmid; apply length_digits_of).
  pose proof (value_bounds in_base in_ ltac:(lia) Hin) as Hvb.
  assert (Hmv : value out_base mid = value in_base in_).
  { rewrite Hmid. apply value_digits_of; [lia|]. rewrite Z2Nat.id by lia. lia. }
  destruct (H2 mid out_len out_base back in_len in_base)
    as (e2 & o2 & -> & Hc2).
  { unfold precondition. repeat split; try lia. done. }
  destruct (converted_fits _ _ _ _ _ _ Hc2) as [-> ->].
  { rewrite Hmv, <- Hil. lia. }
  rewrite Hmv, <- Hil, Nat2Z.id. do 2 f_equal.
  apply digits_of_value; [lia|done].
Qed.

(** X4. Converting a numeral that fits to another base and converting the
    result back, into as many digits as the numeral has, returns the
    numeral itself; in either file. *)
Theorem convert_base_roundtrip (in_ : list Z) (in_len in_base : Z)
    (out back : list Z) (out_len out_base : Z) :
  precondition in_ in_len in_base out out_len out_base →
  value in_base in_ < out_base ^ out_len →
  length back = length in_ →
  (∃ mid,
     Naive.convert_base in_ in_len in_base out out_len out_base
     = Some (0, mid)
     ∧ Naive.convert_base mid out_len out_base back in_len in_base
       = Some (0, in_))
  ∧ (∃ mid,
       Refined.convert_base in_ in_len in_base out out_len out_base
       = Some (0, mid)
       ∧ Refined.convert_base mid out_len out_base back in_len in_base
         = Some (0, in_)).
Proof.
  intros Hpre Hlt Hback. split.
  - by apply convert_there_and_back;
      try apply naive_conversion_contract.
  - by apply convert_there_and_back;
      try apply refined_conversion_contract.
Qed.

Lemma convert_base_roundtrip_witness :
  precondition [0; 7; 250] 3 251 [9; 9; 9; 9; 9] 5 7
  ∧ value 251 [0; 7; 250] < 7 ^ 5
  ∧ length [1; 1; 1] = length [0; 7; 250]
  ∧ (∃ mid,
       Refined.convert_base [0; 7; 250] 3 251 [9; 9; 9; 9; 9] 5 7
       = Some (0, mid)
       ∧ Refined.convert_base mid 5 7 [1; 1; 1] 3 251
         = Some (0, [0; 7; 250])).
Proof.
  assert (H : precondition [0; 7; 250] 3 251 [9; 9; 9; 9; 9] 5 7).
  { unfold precondition. repeat split; try lia.
    repeat constructor; unfold is_digit; lia. }
  assert (Hlt : value 251 [0; 7; 250] < 7 ^ 5) by (vm_compute; reflexivity).
  split; [exact H|]. split; [exact Hlt|]. split; [reflexivity|].
  apply (convert_base_roundtrip _ _ _ _ [1; 1; 1] _ _ H Hlt eq_refl).
Defined.

Lemma value_leading_zeros (base : Z) (k : nat) (l : list Z) :
  value base (replicate k 0 ++ l) = value base l.
Proof. rewrite value_app, value_replicate_0. lia. Qed.

(** X5. Zero digits put in front of the input change neither the status
    nor, on success, the digits written to [out]; in either file. *)
Theorem convert_base_leading_zeros (in_ : list Z) (in_len in_base : Z)
    (out : list Z) (out_len out_base : Z) (k : nat) :
  precondition in_ in_len in_base out out_len out_base →
  (∃ err o1 o2,
     Naive.convert_base in_ in_len in_base out out_len out_base
     = Some (err, o1)
     ∧ Naive.convert_base (replicate k 0 ++ in_) (in_len + Z.of_nat k)
         in_base out out_len out_base = Some (err, o2)
     ∧ (err = 0 → o2 = o1))
  ∧ (∃ err o1 o2,
       Refined.convert_base in_ in_len in_base out out_len out_base
       = Some (err, o1)
       ∧ Refined.convert_base (replicate k 0 ++ in_) (in_len + Z.of_nat k)
           in_base out out_len out_base = Some (err, o2)
       ∧ (err = 0 → o2 = o1)).
Proof.
  intros Hpre.
  assert (Hpre' : precondition (replicate k 0 ++ in_) (in_len + Z.of_nat k)
                    in_base out out_len out_base).
  { destruct Hpre as (Hib & Hob & Hin & Hil & Hol).
    unfold precondition. repeat split; try lia.
    - apply Forall_app. split; [|done].
      apply Forall_replicate. unfold is_digit. lia.
    - rewrite length_app, length_replicate. lia. }
  assert (Hgen : ∀ cb, conversion_contract cb →
             ∃ err o1 o2,
               cb in_ in_len in_base out out_len out_base = Some (err, o1)
               ∧ cb (replicate k 0 ++ in_) (in_len + Z.of_nat k)
                   in_base out out_len out_base = Some (err, o2)
               ∧ (err = 0 → o2 = o1)).
  { intros cb Hcb.
    destruct (Hcb _ _ _ _ _ _ Hpre) as (e1 & o1 & -> & [_ H1]).
    destruct (Hcb _ _ _ _ _ _ Hpre') as (e2 & o2 & -> & [_ H2]).
    rewrite value_leading_zeros in H2.
    destruct (value in_base in_ <? out_base ^ out_len).
    - destruct H1 as [-> ->], H2 as [-> ->]. eexists 0, _, _.
      repeat split; reflexivity.
    - subst e1 e2. exists (-1), o1, o2. repeat split; lia. }
  split; apply Hgen;
    [apply naive_conversion_contract|apply refined_conversion_contract].
Qed.

Lemma convert_base_leading_zeros_witness :
  precondition [3; 5] 2 36 [7] 1 256
  ∧ Refined.convert_base (replicate 11 0 ++ [3; 5]) (2 + Z.of_nat 11) 36
      [7] 1 256
    = Some (0, [113]).
Proof.
  assert (H : precondition [3; 5] 2 36 [7] 1 256).
  { unfold precondition. repeat split; try lia.
    repeat constructor; unfold is_digit; lia. }
  split; [exact H|].
  destruct (convert_base_leading_zeros _ _ _ _ _ _ 11%nat H)
    as [_ (err & o1 & o2 & H1 & H2 & H3)].
  vm_compute in H1. injection H1 as <- <-.
  rewrite H2, (H3 eq_refl). reflexivity.
Defined.

(** ** Edge cases of [convert_base] *)

Lemma digits_of_zero (base : Z) (n : nat) :
  0 < base → digits_of base n 0 = replicate n 0.
Proof.
  intros Hb.
  pose proof (digits_of_value base (replicate n 0) Hb) as H.
  rewrite length_replicate, value_replicate_0 in H. apply H.
  apply Forall_replicate. unfold is_digit. lia.
Qed.

(** X6. An empty input converts, with success, to zeros in all of [out];
    in either file. *)
Theorem convert_base_empty_input (in_base out_base : Z) (out : list Z) :
  2 ≤ in_base ≤ 256 → 2 ≤ out_base ≤ 256 →
  Naive.convert_base [] 0 in_base out (Z.of_nat (length out)) out_base
  = Some (0, replicate (length out) 0)
  ∧ Refined.convert_base [] 0 in_base out (Z.of_nat (length out)) out_base
    = Some (0, replicate (length out) 0).
Proof.
  intros Hib Hob.
  assert (Hpre : precondition [] 0 in_base out (Z.of_nat (length out))
                   out_base)
    by (unfold precondition; repeat split; try lia; constructor).
  assert (Hlt : value in_base [] < out_base ^ Z.of_nat (length out))
    by (rewrite value_nil; apply Z.pow_pos_nonneg; lia).
  assert (Hgen : ∀ cb, conversion_contract cb →
             cb [] 0 in_base out (Z.of_nat (length out)) out_base
             = Some (0, replicate (length out) 0)).
  { intros cb Hcb. destruct (Hcb _ _ _ _ _ _ Hpre) as (e & o & -> & Hc).
    destruct (converted_fits _ _ _ _ _ _ Hc Hlt) as [-> ->].
    rewrite value_nil, Nat2Z.id, digits_of_zero by lia. done. }
  split; apply Hgen;
    [apply naive_conversion_contract|apply refined_conversion_contract].
Qed.

Lemma convert_base_empty_input_witness :
  2 ≤ 36 ≤ 256 ∧ 2 ≤ 256 ≤ 256
  ∧ Naive.convert_base [] 0 36 [7; 8; 9] (Z.of_nat (length [7; 8; 9])) 256
    = Some (0, [0; 0; 0])
  ∧ Refined.convert_base [] 0 36 [7; 8; 9] (Z.of_nat (length [7; 8; 9])) 256
    = Some (0, [0; 0; 0]).
Proof.
  split; [lia|]. split; [lia|].
  apply (convert_base_empty_input 36 256 [7; 8; 9]); lia.
Defined.

Lemma value_zero_digits (base : Z) (l : list Z) :
  0 < base → Forall (is_digit base) l →
  (value base l = 0 ↔ forallb (λ d, d =? 0) l = true).
Proof.
  intros Hb. induction l as [|x l IH] using rev_ind; intros Hl; [done|].
  apply Forall_app in Hl as [Hl Hx]. apply Forall_inv in Hx.
  unfold is_digit in Hx. specialize (IH Hl).
  pose proof (value_bounds base l Hb Hl) as Hv.
  rewrite value_snoc, forallb_app. simpl.
  rewrite Bool.andb_true_r, Bool.andb_true_iff, <- IH, Z.eqb_eq. nia.
Qed.

(** X7. With no output digit at all ([out_len] zero) the conversion
    succeeds exactly when every input digit is zero; in either file. *)
Theorem convert_base_no_output (in_ : list Z) (in_len in_base out_base : Z) :
  precondition in_ in_len in_base [] 0 out_base →
  Naive.convert_base in_ in_len in_base [] 0 out_base
  = Some (if forallb (λ d, d =? 0) in_ then 0 else -1, [])
  ∧ Refined.convert_base in_ in_len in_base [] 0 out_base
    = Some (if forallb (λ d, d =? 0) in_ then 0 else -1, []).
Proof.
  intros Hpre.
  assert (Hgen : ∀ cb, conversion_contract cb →
             cb in_ in_len in_base [] 0 out_base
             = Some (if forallb (λ d, d =? 0) in_ then 0 else -1, [])).
  { intros cb Hcb. destruct (Hcb _ _ _ _ _ _ Hpre) as (e & o & -> & Hl & Hc).
    destruct Hpre as (Hib & Hob & Hin & _).
    destruct o; [|done].
    pose proof (value_zero_digits in_base in_ ltac:(lia) Hin) as Hz.
    pose proof (value_bounds in_base in_ ltac:(lia) Hin) as Hv.
    change (out_base ^ 0) with 1 in Hc.
    destruct (Z.ltb_spec (value in_base in_) 1) as [Hlt|Hge].
    - destruct Hc as [-> _]. rewrite (proj1 Hz) by lia. done.
    - subst e. destruct (forallb _ in_); [|done].
      assert (value in_base in_ = 0) by (by apply Hz). lia. }
  split; apply Hgen;
    [apply naive_conversion_contract|apply refined_conversion_contract].
Qed.

Lemma convert_base_no_output_witness :
  precondition [0; 0; 3] 3 36 [] 0 256
  ∧ Naive.convert_base [0; 0; 3] 3 36 [] 0 256 = Some (-1, [])
  ∧ Refined.convert_base [0; 0; 3] 3 36 [] 0 256 = Some (-1, []).
Proof.
  assert (H : precondition [0; 0; 3] 3 36 [] 0 256).
  { unfold precondition. repeat split; try lia.
    repeat constructor; unfold is_digit; lia. }
  split; [exact H|]. apply (convert_base_no_output _ _ _ _ H).
Defined.

(** X8. The word chosen by the refined [convert_base] is the longest one
    that fits: [word_base] is [in_base ^ word_len], [word_base * out_base]
    does not exceed [UINT64_MAX], and one more input digit would. *)
Theorem select_word_maximal (in_base out_base : Z) :
  2 ≤ in_base ≤ 256 → 2 ≤ out_base ≤ 256 →
  ∃ word_len,
    Refined.select_word in_base out_base
    = Some (word_len, in_base ^ word_len)
    ∧ 1 ≤ word_len
    ∧ in_base ^ word_len * out_base ≤ UINT64_MAX
    ∧ UINT64_MAX < in_base ^ (word_len + 1) * out_base.
Proof.
  intros Hib Hob.
  destruct (select_word_spec in_base out_base Hib Hob)
    as (wl & wb & Hsel & Hwl & -> & Hfit & Hmax).
  exists wl. split; [done|]. split; [done|]. split; [done|].
  rewrite Z.pow_add_r, Z.pow_1_r by lia.
  pose proof (Z.mul_succ_div_gt UINT64_MAX (in_base * out_base) ltac:(nia)).
  assert (Z.succ (UINT64_MAX / (in_base * out_base)) ≤ in_base ^ wl) by lia.
  assert (in_base * out_base * Z.succ (UINT64_MAX / (in_base * out_base))
          ≤ in_base * out_base * in_base ^ wl)
    by (apply Z.mul_le_mono_nonneg_l; nia).
  lia.
Qed.

Lemma select_word_maximal_witness :
  2 ≤ 256 ≤ 256 ∧ 2 ≤ 36 ≤ 256
  ∧ ∃ word_len,
      Refined.select_word 256 36 = Some (word_len, 256 ^ word_len)
      ∧ 1 ≤ word_len
      ∧ 256 ^ word_len * 36 ≤ UINT64_MAX
      ∧ UINT64_MAX < 256 ^ (word_len + 1) * 36.
Proof.
  split; [lia|]. split; [lia|]. apply select_word_maximal; lia.
Defined.

(** ** Texts of another length *)

Lemma all_base36_nul (t : string) (k : nat) :
  (k < 25)%nat → char_at t k = 0 → all_base36 t = false.
Proof.
  intros Hk H0. unfold all_base36.
  destruct (forallb _ _) eqn:Hall; [|done].
  rewrite forallb_forall in Hall.
  specialize (Hall k ltac:(apply in_seq; lia)).
  rewrite H0 in Hall. done.
Qed.

Lemma char_at_length (t : string) : char_at t (String.length t) = 0.
Proof. unfold char_at. by rewrite get_length_none. Qed.

(** X9. A C string of any length other than 25 is rejected, and [out] is
    left as it was; in either file. *)
Theorem decode_wrong_length (t : string) (out : list Z) :
  no_nul t → String.length t ≠ 25%nat →
  Naive.decode t out = Some (-1, out)
  ∧ Refined.decode t out = Some (-1, out).
Proof.
  intros Hnn Hlen.
  assert (Hgen : ∀ cb, decode cb t out = Some (-1, out)).
  { intros cb. destruct (le_lt_dec 25 (String.length t)) as [Hlong|Hshort].
    - apply decode_no_terminator. apply Hnn. lia.
    - apply decode_invalid_char.
      apply (all_base36_nul t (String.length t) Hshort), char_at_length. }
  split; apply Hgen.
Qed.

Lemma decode_wrong_length_witness :
  no_nul "00000000000000000000000000"
  ∧ String.length "00000000000000000000000000" ≠ 25%nat
  ∧ Naive.decode "00000000000000000000000000" [1; 2; 3]
    = Some (-1, [1; 2; 3])
  ∧ Refined.decode "00000000000000000000000000" [1; 2; 3]
    = Some (-1, [1; 2; 3]).
Proof.
  assert (H : no_nul "00000000000000000000000000").
  { intros k Hk. simpl in Hk.
    do 26 (destruct k as [|k]; [vm_compute; discriminate|]). lia. }
  assert (Hl : String.length "00000000000000000000000000" ≠ 25%nat)
    by (simpl; lia).
  split; [exact H|]. split; [exact Hl|].
  apply (decode_wrong_length _ [1; 2; 3] H Hl).
Defined.

(** ** The two files together *)

(** X10. A text printed by [encode] of one file is decoded to the same
    bytes by [decode] of the other file. *)
Theorem cross_file_roundtrip (b out : list Z) :
  is_bytes16 b → length out = 16%nat →
  ∃ t_naive t_refined,
    Naive.encode b = Some t_naive
    ∧ Refined.encode b = Some t_refined
    ∧ Refined.decode t_naive out = Some (0, b)
    ∧ Naive.decode t_refined out = Some (0, b).
Proof.
  intros [Hlen Hb] Hout.
  exists (encoded Naive.DIGITS b), (encoded Refined.DIGITS b).
  split; [apply (encode_spec _ _ naive_conversion_contract); done|].
  split; [apply (encode_spec _ _ refined_conversion_contract); done|].
  split.
  - apply (decode_encoded _ _ _ refined_conversion_contract naive_digits_ok);
      done.
  - apply (decode_encoded _ _ _ naive_conversion_contract refined_digits_ok);
      done.
Qed.

Lemma cross_file_roundtrip_witness :
  is_bytes16 sample_bytes ∧ length (replicate 16 7) = 16%nat
  ∧ Refined.decode "0372HG16CSMSM50L8DIKCVUKC" (replicate 16 7)
    = Some (0, sample_bytes)
  ∧ Naive.decode "0372hg16csmsm50l8dikcvukc" (replicate 16 7)
    = Some (0, sample_bytes).
Proof.
  assert (H : is_bytes16 sample_bytes).
  { split; [reflexivity|]. repeat constructor; unfold is_digit; lia. }
  split; [exact H|]. split; [reflexivity|].
  destruct (cross_file_roundtrip sample_bytes (replicate 16 7) H eq_refl)
    as (tn & tr & Hn & Hr & H1 & H2).
  vm_compute in Hn. injection Hn as <-.
  vm_compute in Hr. injection Hr as <-.
  split; [exact H1|exact H2].
Defined.

Lemma map_string_of_list (f : ascii → ascii) (l : list ascii) :
  map_string f (string_of_list_ascii l) = string_of_list_ascii (map f l).
Proof. induction l as [|a l IH]; simpl; [done|]. by rewrite IH. Qed.

Lemma digits_tables_case (d : Z) :
  0 ≤ d < 36 →
  to_lower (digit_char Naive.DIGITS d) = digit_char Refined.DIGITS d
  ∧ to_upper (digit_char Refined.DIGITS d) = digit_char Naive.DIGITS d.
Proof.
  intros Hd.
  assert (Hall : forallb (λ n,
                   Ascii.eqb (to_lower (digit_char Naive.DIGITS (Z.of_nat n)))
                     (digit_char Refined.DIGITS (Z.of_nat n))
                   && Ascii.eqb
                        (to_upper (digit_char Refined.DIGITS (Z.of_nat n)))
                        (digit_char Naive.DIGITS (Z.of_nat n)))
                 (seq 0 36) = true) by (vm_compute; reflexivity).
  rewrite forallb_forall in Hall.
  specialize (Hall (Z.to_nat d) ltac:(apply in_seq; lia)).
  rewrite Z2Nat.id in Hall by lia.
  apply andb_prop in Hall as [H1 H2].
  apply Ascii.eqb_eq in H1, H2. done.
Qed.

(** X11. For every 16-byte input the texts printed by the two files differ
    in letter case only: the refined text is the naive text in lower case,
    and the naive text is the refined text in upper case. *)
Theorem encode_files_differ_in_case (b : list Z) :
  is_bytes16 b →
  ∃ t_naive t_refined,
    Naive.encode b = Some t_naive
    ∧ Refined.encode b = Some t_refined
    ∧ t_refined = map_string to_lower t_naive
    ∧ t_naive = map_string to_upper t_refined.
Proof.
  intros [Hlen Hb].
  exists (encoded Naive.DIGITS b), (encoded Refined.DIGITS b).
  split; [apply (encode_spec _ _ naive_conversion_contract); done|].
  split; [apply (encode_spec _ _ refined_conversion_contract); done|].
  pose proof (digits_of_is_digit 36 25 (value 256 b) ltac:(lia)) as Hd.
  rewrite Forall_forall in Hd.
  unfold encoded. rewrite !map_string_of_list, !map_map.
  split; f_equal; apply map_ext_in; intros d Hin;
    destruct (digits_tables_case d (Hd d Hin)); done.
Qed.

Lemma encode_files_differ_in_case_witness :
  is_bytes16 max_bytes
  ∧ ∃ t_naive t_refined,
      Naive.encode max_bytes = Some t_naive
      ∧ Refined.encode max_bytes = Some t_refined
      ∧ t_refined = map_string to_lower t_naive
      ∧ t_naive = map_string to_upper t_refined.
Proof.
  assert (H : is_bytes16 max_bytes).
  { split; [reflexivity|]. repeat constructor; unfold is_digit; lia. }
  split; [exact H|]. apply (encode_files_differ_in_case max_bytes H).
Defined.

(** X12. On every text the two [decode] return the same status, and on
    success the same bytes. *)
Theorem decode_files_agree (text : string) (out : list Z) :
  length out = 16%nat →
  ∃ err out_naive out_refined,
    Naive.decode text out = Some (err, out_naive)
    ∧ Refined.decode text out = Some (err, out_refined)
    ∧ (err = 0 → out_naive = out_refined).
Proof.
  intros Hout.
  destruct (decodes_iff_acceptable_with Naive.convert_base text out
              naive_conversion_contract Hout) as [Hn1 Hn0].
  destruct (decodes_iff_acceptable_with Refined.convert_base text out
              refined_conversion_contract Hout) as [Hr1 Hr0].
  destruct (acceptable text) eqn:Hacc.
  - eexists 0, _, _. split; [by apply Hn1|]. split; [by apply Hr1|]. done.
  - destruct (Hn0 eq_refl) as [o1 H1]. destruct (Hr0 eq_refl) as [o2 H2].
    exists (-1), o1, o2. split; [done|]. split; [done|]. lia.
Qed.

Lemma decode_files_agree_witness :
  length (replicate 16 7) = 16%nat
  ∧ ∃ err out_naive out_refined,
      Naive.decode "zzzzzzzzzzzzzzzzzzzzzzzzz" (replicate 16 7)
      = Some (err, out_naive)
      ∧ Refined.decode "zzzzzzzzzzzzzzzzzzzzzzzzz" (replicate 16 7)
        = Some (err, out_refined)
      ∧ (err = 0 → out_naive = out_refined).
Proof.
  split; [reflexivity|].
  apply (decode_files_agree "zzzzzzzzzzzzzzzzzzzzzzzzz" (replicate 16 7)).
  reflexivity.
Defined.

(** ** Order *)

Lemma value_cons (base x : Z) (l : list Z) :
  value base (x :: l) = x * base ^ Z.of_nat (length l) + value base l.
Proof.
  change (x :: l) with ([x] ++ l). rewrite value_app.
  unfold value at 1. simpl. lia.
Qed.

(** For numerals of one length the order of the values is the order of the
    digit lists read from the front. *)
Lemma lex_compare_value (base : Z) (l1 l2 : list Z) :
  0 < base → length l1 = length l2 →
  Forall (is_digit base) l1 → Forall (is_digit base) l2 →
  lex_compare l1 l2 = (value base l1 ?= value base l2).
Proof.
  intros Hb. revert l2.
  induction l1 as [|x l1 IH]; intros [|y l2] Hlen H1 H2; try done.
  apply Forall_cons_1 in H1 as [Hx H1]. apply Forall_cons_1 in H2 as [Hy H2].
  simpl in Hlen. injection Hlen as Hlen.
  unfold is_digit in Hx, Hy.
  pose proof (value_bounds base l1 Hb H1) as Hv1.
  pose proof (value_bounds base l2 Hb H2) as Hv2.
  rewrite !value_cons, <- Hlen. rewrite <- Hlen in Hv2.
  set (P := base ^ Z.of_nat (length l1)) in *.
  cbn [lex_compare].
  destruct (Z.compare_spec x y) as [->|Hlt|Hgt].
  - rewrite (IH l2 Hlen H1 H2). symmetry. apply Z.add_compare_mono_l.
  - symmetry. apply Z.compare_lt_iff.
    assert ((x + 1) * P ≤ y * P) by (apply Z.mul_le_mono_nonneg_r; lia).
    lia.
  - symmetry. apply Z.compare_gt_iff.
    assert ((y + 1) * P ≤ x * P) by (apply Z.mul_le_mono_nonneg_r; lia).
    lia.
Qed.

Lemma digits_table_monotone (DIGITS : string) (x y : Z) :
  digits_table_monotone_check DIGITS = true →
  0 ≤ x < 36 → 0 ≤ y < 36 →
  Ascii.compare (digit_char DIGITS x) (digit_char DIGITS y) = (x ?= y).
Proof.
  intros Hall Hx Hy. unfold digits_table_monotone_check in Hall.
  rewrite forallb_forall in Hall.
  specialize (Hall (Z.to_nat x) ltac:(apply in_seq; lia)).
  rewrite forallb_forall in Hall.
  specialize (Hall (Z.to_nat y) ltac:(apply in_seq; lia)).
  rewrite !Z2Nat.id in Hall by lia.
  destruct (Ascii.compare _ _), (x ?= y); done.
Qed.

Lemma string_compare_digits (DIGITS : string) (l1 l2 : list Z) :
  digits_table_monotone_check DIGITS = true →
  Forall (is_digit 36) l1 → Forall (is_digit 36) l2 →
  String.compare (string_of_list_ascii (map (digit_char DIGITS) l1))
    (string_of_list_ascii (map (digit_char DIGITS) l2))
  = lex_compare l1 l2.
Proof.
  intros Hm. revert l2.
  induction l1 as [|x l1 IH]; intros [|y l2] H1 H2; try done.
  apply Forall_cons_1 in H1 as [Hx H1]. apply Forall_cons_1 in H2 as [Hy H2].
  cbn [map string_of_list_ascii String.compare lex_compare].
  rewrite (digits_table_monotone DIGITS x y Hm Hx Hy), (IH l2 H1 H2).
  by destruct (x ?= y).
Qed.

Lemma value_base36_digits (b : list Z) :
  length b = 16%nat → Forall (is_digit 256) b →
  value 36 (digits_of 36 25 (value 256 b)) = value 256 b.
Proof.
  intros Hl Hb. destruct (bytes_fit b Hl Hb) as [Hv H36].
  apply value_digits_of; [lia|]. change (Z.of_nat 25) with 25. lia.
Qed.

(** X13. Texts sort as the identifiers do: for two 16-byte inputs the
    comparison of the texts printed by [encode], character by character,
    is the comparison of the byte arrays, byte by byte; in either file. *)
Theorem encode_keeps_order (b1 b2 : list Z) :
  is_bytes16 b1 → is_bytes16 b2 →
  (∃ t1 t2, Naive.encode b1 = Some t1 ∧ Naive.encode b2 = Some t2
            ∧ String.compare t1 t2 = lex_compare b1 b2)
  ∧ (∃ t1 t2, Refined.encode b1 = Some t1 ∧ Refined.encode b2 = Some t2
              ∧ String.compare t1 t2 = lex_compare b1 b2).
Proof.
  intros [Hl1 Hb1] [Hl2 Hb2].
  assert (Hgen : ∀ DIGITS, digits_table_monotone_check DIGITS = true →
             String.compare (encoded DIGITS b1) (encoded DIGITS b2)
             = lex_compare b1 b2).
  { intros DIGITS Hm. unfold encoded.
    rewrite (string_compare_digits DIGITS _ _ Hm)
      by (apply digits_of_is_digit; lia).
    rewrite (lex_compare_value 36)
      by (rewrite ?length_digits_of; try apply digits_of_is_digit; lia).
    rewrite (value_base36_digits b1), (value_base36_digits b2) by done.
    symmetry. apply lex_compare_value; [lia|congruence|done|done]. }
  split.
  - exists (encoded Naive.DIGITS b1), (encoded Naive.DIGITS b2).
    split; [apply (encode_spec _ _ naive_conversion_contract); done|].
    split; [apply (encode_spec _ _ naive_conversion_contract); done|].
    apply Hgen. vm_compute. reflexivity.
  - exists (encoded Refined.DIGITS b1), (encoded Refined.DIGITS b2).
    split; [apply (encode_spec _ _ refined_conversion_contract); done|].
    split; [apply (encode_spec _ _ refined_conversion_contract); done|].
    apply Hgen. vm_compute. reflexivity.
Qed.

Lemma encode_keeps_order_witness :
  is_bytes16 sample_bytes ∧ is_bytes16 max_bytes
  ∧ lex_compare sample_bytes max_bytes = Lt
  ∧ String.compare "0372hg16csmsm50l8dikcvukc" "f5lxx1zz5pnorynqglhzmsp33"
    = Lt.
Proof.
  assert (H1 : is_bytes16 sample_bytes).
  { split; [reflexivity|]. repeat constructor; unfold is_digit; lia. }
  assert (H2 : is_bytes16 max_bytes).
  { split; [reflexivity|]. repeat constructor; unfold is_digit; lia. }
  split; [exact H1|]. split; [exact H2|]. split; [reflexivity|].
  destruct (encode_keeps_order sample_bytes max_bytes H1 H2)
    as [_ (t1 & t2 & He1 & He2 & Hc)].
  vm_compute in He1. injection He1 as <-.
  vm_compute in He2. injection He2 as <-.
  rewrite Hc. reflexivity.
Defined.

(** ** Strings, character by character *)

Lemma get_ge_None (t : string) (k : nat) :
  (String.length t ≤ k)%nat → String.get k t = None.
Proof.
  revert k. induction t as [|a t IH]; intros k Hk; [by destruct k|].
  destruct k as [|k]; simpl in *; [lia|]. apply IH. lia.
Qed.

Lemma get_lt_Some (t : string) (k : nat) :
  (k < String.length t)%nat → ∃ a, String.get k t = Some a.
Proof.
  revert k. induction t as [|a t IH]; intros k Hk; simpl in *; [lia|].
  destruct k as [|k]; [by exists a|]. apply IH. lia.
Qed.

Lemma string_ext (s t : string) :
  String.length s = String.length t →
  (∀ k, (k < String.length s)%nat → String.get k s = String.get k t) →
  s = t.
Proof.
  revert t. induction s as [|a s IH]; intros [|b t] Hlen Hget; try done.
  simpl in Hlen. injection Hlen as Hlen.
  pose proof (Hget 0%nat ltac:(simpl; lia)) as H0. simpl in H0.
  injection H0 as ->. f_equal. apply IH; [done|].
  intros k Hk. apply (Hget (S k)). simpl. lia.
Qed.

Lemma get_map_string (f : ascii → ascii) (t : string) (k : nat) :
  String.get k (map_string f t) = f <$> String.get k t.
Proof.
  revert k. induction t as [|a t IH]; intros k; [by destruct k|].
  destruct k as [|k]; simpl; [done|]. apply IH.
Qed.

Lemma length_map_string (f : ascii → ascii) (t : string) :
  String.length (map_string f t) = String.length t.
Proof. induction t as [|a t IH]; simpl; auto. Qed.

Lemma code_of_inj (a b : ascii) : code_of a = code_of b → a = b.
Proof.
  unfold code_of. intros H.
  rewrite <- (ascii_N_embedding a), <- (ascii_N_embedding b).
  f_equal. lia.
Qed.

Lemma base36_code_nonzero (c : Z) : is_base36_code c = true → c ≠ 0.
Proof. intros H ->. done. Qed.

(** ** Decoding, then encoding *)

Lemma canonical_char_lower (a : ascii) :
  is_base36_code (code_of a) = true →
  digit_char Refined.DIGITS (base36_digit (code_of a)) = to_lower a.
Proof.
  destruct a as [[] [] [] [] [] [] [] []];
    vm_compute; intros H; try discriminate H; reflexivity.
Qed.

Lemma canonical_char_upper (a : ascii) :
  is_base36_code (code_of a) = true →
  digit_char Naive.DIGITS (base36_digit (code_of a)) = to_upper a.
Proof.
  destruct a as [[] [] [] [] [] [] [] []];
    vm_compute; intros H; try discriminate H; reflexivity.
Qed.

Lemma uint128_limit : 2 ^ 128 - 1 < 256 ^ 16.
Proof. vm_compute. reflexivity. Qed.

Lemma decode_success_inv
    (cb : list Z → Z → Z → list Z → Z → Z → option (Z * list Z))
    (t : string) (out b : list Z) :
  conversion_contract cb → length out = 16%nat →
  decode cb t out = Some (0, b) →
  all_base36 t = true ∧ char_at t 25 = 0
  ∧ 0 ≤ numeral t < 256 ^ 16
  ∧ b = digits_of 256 16 (numeral t).
Proof.
  intros Hcb Hout Hdec.
  destruct (decodes_iff_acceptable_with cb t out Hcb Hout) as [H1 H0].
  destruct (acceptable t) eqn:Hacc.
  - rewrite (H1 eq_refl) in Hdec. injection Hdec as <-.
    unfold acceptable in Hacc.
    apply andb_prop in Hacc as [Hacc Hle]. apply andb_prop in Hacc as [Ha Hn].
    apply Z.eqb_eq in Hn. apply Z.leb_le in Hle.
    destruct (text_digits_ok t Ha) as [Hd Hl].
    pose proof (value_bounds 36 (text_digits t) ltac:(lia) Hd) as Hv.
    split; [exact Ha|]. split; [exact Hn|]. split; [|reflexivity].
    destruct Hv as [Hv0 _].
    exact (conj Hv0 (Z.le_lt_trans _ _ _ Hle uint128_limit)).
  - destruct (H0 eq_refl) as [o Ho]. rewrite Ho in Hdec. discriminate Hdec.
Qed.

Lemma encode_decoded
    (cb : list Z → Z → Z → list Z → Z → Z → option (Z * list Z))
    (DIGITS : string) (g : ascii → ascii) (t : string) (out b : list Z) :
  conversion_contract cb →
  (∀ a, is_base36_code (code_of a) = true →
        digit_char DIGITS (base36_digit (code_of a)) = g a) →
  String.length t = 25%nat → length out = 16%nat →
  decode cb t out = Some (0, b) →
  encode cb DIGITS b = Some (map_string g t).
Proof.
  intros Hcb Hg Hlen Hout Hdec.
  destruct (decode_success_inv cb t out b Hcb Hout Hdec)
    as (Hall & _ & Hnum & ->).
  destruct (text_digits_ok t Hall) as [Hd Hl].
  rewrite (encode_spec cb DIGITS Hcb)
    by (rewrite ?length_digits_of; try apply digits_of_is_digit; lia).
  f_equal. unfold encoded.
  rewrite value_digits_of by (change (Z.of_nat 16) with 16; lia).
  unfold numeral. rewrite <- Hl at 1. rewrite digits_of_value by (lia || done).
  apply string_ext.
  - rewrite length_string_of_list, length_map, Hl, length_map_string. done.
  - rewrite length_string_of_list, length_map, Hl. intros k Hk.
    rewrite get_string_of_list, get_map_string, list_lookup_fmap.
    unfold text_digits. rewrite list_lookup_fmap, lookup_seq_lt by done.
    destruct (get_lt_Some t k ltac:(lia)) as [a Ha].
    unfold all_base36 in Hall. rewrite forallb_forall in Hall.
    specialize (Hall k ltac:(apply in_seq; lia)).
    rewrite Ha. cbn. unfold char_at in Hall |- *. rewrite Ha in Hall |- *.
    f_equal. by apply Hg.
Qed.

(** X14. Decoding a 25-character text and encoding the bytes obtained
    gives the text in the letter case of the file: lower case in the
    refined file, upper case in [base36_128.c]. *)
Theorem decode_then_encode (t : string) (out b : list Z) :
  String.length t = 25%nat → length out = 16%nat →
  (Naive.decode t out = Some (0, b) →
   Naive.encode b = Some (map_string to_upper t))
  ∧ (Refined.decode t out = Some (0, b) →
     Refined.encode b = Some (map_string to_lower t)).
Proof.
  intros Hlen Hout. split; intros Hdec.
  - by apply (encode_decoded Naive.convert_base Naive.DIGITS to_upper t out b
                naive_conversion_contract canonical_char_upper).
  - by apply (encode_decoded Refined.convert_base Refined.DIGITS to_lower
                t out b refined_conversion_contract canonical_char_lower).
Qed.

Lemma decode_then_encode_witness :
  String.length "0372Hg16CSMsm50l8dIKCvukC" = 25%nat
  ∧ length (replicate 16 7) = 16%nat
  ∧ Naive.encode sample_bytes = Some "0372HG16CSMSM50L8DIKCVUKC"%string
  ∧ Refined.encode sample_bytes = Some "0372hg16csmsm50l8dikcvukc"%string.
Proof.
  split; [reflexivity|]. split; [reflexivity|].
  destruct (decode_then_encode "0372Hg16CSMsm50l8dIKCvukC" (replicate 16 7)
              sample_bytes eq_refl eq_refl) as [H1 H2].
  split; [apply H1|apply H2]; vm_compute; reflexivity.
Defined.

(** ** The loops of the documentation *)

Lemma readme_inner_loop (j : nat) (dv : list Z) (c : Z) (tr : list Z) :
  Readme.inner_loop j dv c
  = ((Naive.inner_loop 256 36 j dv c tr).1.1,
     (Naive.inner_loop 256 36 j dv c tr).1.2).
Proof.
  revert dv c tr. induction j as [|j IH]; intros dv c tr; [done|].
  rewrite naive_inner_loop_S. cbn [Readme.inner_loop].
  unfold inner_step. apply IH.
Qed.

Lemma uint_bits_fast16 : UINT_BITS = UINT_FAST16_BITS.
Proof. reflexivity. Qed.

Lemma readme_outer_loop_S (id : list Z) (n i : nat) (dv : list Z) :
  Readme.outer_loop id (S n) i dv
  = Readme.outer_loop id n (S i)
      (Readme.inner_loop 25 dv (wrap UINT_BITS (nth i id 0))).1.
Proof.
  cbn [Readme.outer_loop].
  by destruct (Readme.inner_loop 25 dv (wrap UINT_BITS (nth i id 0))).
Qed.

Lemma naive_outer_loop_S (in_ : list Z) (in_base : Z) (out_len : nat)
    (out_base : Z) (n i : nat) (out tr : list Z) :
  Naive.outer_loop in_ in_base out_len out_base (S n) i out tr
  = let '(out', carry, tr') :=
      Naive.inner_loop in_base out_base out_len out
        (wrap UINT_FAST16_BITS (nth i in_ 0)) (tr ++ [nth i in_ 0]) in
    if carry =? 0
    then Naive.outer_loop in_ in_base out_len out_base n (S i) out' tr'
    else (-1, out', tr').
Proof. reflexivity. Qed.

Lemma readme_outer_loop (id : list Z) (n i : nat) (dv tr : list Z)
    (out' tr' : list Z) :
  Naive.outer_loop id 256 25 36 n i dv tr = (0, out', tr') →
  Readme.outer_loop id n i dv = out'.
Proof.
  revert i dv tr. induction n as [|n IH]; intros i dv tr H.
  - injection H as <- _. reflexivity.
  - rewrite naive_outer_loop_S in H. rewrite readme_outer_loop_S.
    rewrite (readme_inner_loop 25 dv _ (tr ++ [nth i id 0])).
    rewrite uint_bits_fast16.
    destruct (Naive.inner_loop 256 36 25 dv
                (wrap UINT_FAST16_BITS (nth i id 0)) (tr ++ [nth i id 0]))
      as [[o c] t].
    destruct (c =? 0); [|discriminate H]. exact (IH _ _ t H).
Qed.

Lemma readme_text_of_digits (id dv : list Z) :
  Readme.outer_loop id 16 0 (replicate 25 0) = dv →
  Readme.text id
  = string_of_list_ascii
      (map (λ i, digit_char Readme.digits (nth i dv 0)) (seq 0 25)).
Proof. intros <-. reflexivity. Qed.

Lemma encoded_by_index (DIGITS : string) (b : list Z) :
  encoded DIGITS b
  = string_of_list_ascii
      (map (λ i, digit_char DIGITS (nth i (digits_of 36 25 (value 256 b)) 0))
         (seq 0 25)).
Proof.
  (* both sides list the same 25 characters *)
  unfold encoded. reflexivity.
Qed.

Lemma to_nat_25 : Z.to_nat 25 = 25%nat.
Proof. reflexivity. Qed.

Lemma to_nat_16 : Z.to_nat 16 = 16%nat.
Proof. reflexivity. Qed.

Lemma zero_out_25 : zero_out 25 0 (replicate 25 0) = replicate 25 0.
Proof. reflexivity. Qed.

Lemma naive_run_unfold (in_ : list Z) (in_len in_base : Z)
    (out : list Z) (out_len out_base : Z) :
  Naive.convert_base_run in_ in_len in_base out out_len out_base
  = Naive.outer_loop in_ in_base (Z.to_nat out_len) out_base
      (Z.to_nat in_len) 0 (zero_out (Z.to_nat out_len) 0 out) [].
Proof. reflexivity. Qed.

Lemma bytes_precondition (id dv : list Z) :
  length id = 16%nat → Forall (is_digit 256) id → length dv = 25%nat →
  precondition id 16 256 dv 25 36.
Proof.
  intros Hlen Hb Hdv. unfold precondition. rewrite Hlen, Hdv.
  repeat split; try lia. done.
Qed.

Lemma naive_run_digits (id : list Z) :
  length id = 16%nat → Forall (is_digit 256) id →
  ∃ tr, Naive.outer_loop id 256 25 36 16 0 (replicate 25 0) []
        = (0, digits_of 36 25 (value 256 id), tr).
Proof.
  intros Hlen Hb.
  destruct (naive_convert_base_run_spec id 16 256 (replicate 25 0) 25 36
              (bytes_precondition id (replicate 25 0) Hlen Hb eq_refl))
    as (err & out' & tr & Hrun & Hc & _).
  destruct (bytes_fit id Hlen Hb) as [Hv H36].
  destruct (converted_fits _ _ _ _ _ _ Hc (Z.lt_trans _ _ _ (proj2 Hv) H36))
    as [He Ho].
  exists tr. rewrite naive_run_unfold in Hrun.
  rewrite to_nat_25, to_nat_16, zero_out_25 in Hrun.
  rewrite Hrun, He, Ho, to_nat_25. reflexivity.
Qed.

(** X15. The two loops shown in the documentation, which do not check the
    carry, print for every 16-byte identifier the text that [encode] of the
    refined file prints: no carry is ever left to drop. *)
Theorem readme_text_is_encode (id : list Z) :
  is_bytes16 id → Refined.encode id = Some (Readme.text id).
Proof.
  intros [Hlen Hb]. unfold Refined.encode.
  rewrite (encode_spec _ _ refined_conversion_contract) by done.
  f_equal. destruct (naive_run_digits id Hlen Hb) as [tr Hrun].
  rewrite (readme_text_of_digits id _ (readme_outer_loop _ _ _ _ _ _ _ Hrun)).
  apply encoded_by_index.
Qed.

Lemma readme_text_is_encode_witness :
  is_bytes16 [1; 127; 239; 57; 194; 100; 27; 165;
              106; 148; 131; 24; 136; 65; 224; 90]
  ∧ Refined.encode [1; 127; 239; 57; 194; 100; 27; 165;
                    106; 148; 131; 24; 136; 65; 224; 90]
    = Some (Readme.text [1; 127; 239; 57; 194; 100; 27; 165;
                         106; 148; 131; 24; 136; 65; 224; 90]).
Proof.
  assert (H : is_bytes16 [1; 127; 239; 57; 194; 100; 27; 165;
                          106; 148; 131; 24; 136; 65; 224; 90]).
  { split; [reflexivity|]. repeat constructor; unfold is_digit; lia. }
  split; [exact H|]. apply (readme_text_is_encode _ H).
Defined.

(** The text that the documentation gives for its identifier. *)
Example readme_text_sample :
  Readme.text [1; 127; 239; 57; 194; 100; 27; 165;
               106; 148; 131; 24; 136; 65; 224; 90]
  = "0372ijojuxuhjsfkeryi2mrtm"%string.
Proof. vm_compute. reflexivity. Qed.

(** ** The self-tests *)

Lemma decode_length
    (cb : list Z → Z → Z → list Z → Z → Z → option (Z * list Z))
    (t : string) (out : list Z) (err : Z) (out' : list Z) :
  conversion_contract cb → length out = 16%nat →
  decode cb t out = Some (err, out') → length out' = 16%nat.
Proof.
  intros Hcb Hout Hdec.
  destruct (all_base36 t) eqn:Hall.
  - destruct (Z.eq_dec (char_at t 25) 0) as [Hnul|Hnul].
    + destruct (decode_converts cb Hcb t out Hall Hnul Hout)
        as (e & o & _ & [Hl _] & Hd).
      rewrite Hd in Hdec. injection Hdec as _ <-. exact Hl.
    + rewrite (decode_no_terminator cb t out Hnul) in Hdec.
      injection Hdec as _ <-. exact Hout.
  - rewrite (decode_invalid_char cb t out Hall) in Hdec.
    injection Hdec as _ <-. exact Hout.
Qed.

Section SelfTestProps.

Variable cb : list Z → Z → Z → list Z → Z → Z → option (Z * list Z).
Variable DIGITS : string.
Variable in_case : Z → bool.
Hypothesis Hcb : conversion_contract cb.
Hypothesis Hdigits : digits_table_ok DIGITS in_case.

Lemma encoded_length (b : list Z) : String.length (encoded DIGITS b) = 25%nat.
Proof.
  unfold encoded.
  by rewrite length_string_of_list, length_map, length_digits_of.
Qed.

Lemma encoded_char_nonzero (b : list Z) (k : nat) :
  (k < 25)%nat → char_at (encoded DIGITS b) k ≠ 0.
Proof.
  intros Hk.
  destruct (encoded_char_at DIGITS b k Hk) as (d & _ & Hd & ->).
  apply base36_code_nonzero. by destruct (Hdigits d Hd) as (_ & ? & _).
Qed.

(** A text of at most 25 characters that agrees with the printed text on
    the 26 characters compared by the test is the printed text. *)
Lemma text_is_encoded (b : list Z) (t : string) :
  (String.length t ≤ 25)%nat →
  forallb (λ j, char_at t j =? char_at (encoded DIGITS b) j) (seq 0 26)
  = true →
  t = encoded DIGITS b.
Proof.
  intros Hlen Hall. rewrite forallb_forall in Hall.
  assert (Hch : ∀ k, (k < 25)%nat →
                  char_at t k = char_at (encoded DIGITS b) k).
  { intros k Hk. apply Z.eqb_eq, Hall, in_seq. lia. }
  assert (Hl : String.length t = 25%nat).
  { destruct (le_lt_dec 25 (String.length t)) as [?|Hshort]; [lia|].
    exfalso. apply (encoded_char_nonzero b 24 ltac:(lia)).
    rewrite <- Hch by lia. unfold char_at.
    by rewrite get_ge_None by lia. }
  apply string_ext; [by rewrite encoded_length|].
  intros k Hk. specialize (Hch k ltac:(lia)). unfold char_at in Hch.
  destruct (get_lt_Some t k Hk) as [a Ha].
  destruct (get_lt_Some (encoded DIGITS b) k
              ltac:(rewrite encoded_length; lia)) as [c Hc].
  rewrite Ha, Hc in Hch |- *. f_equal. by apply code_of_inj.
Qed.

Lemma forallb_eqb_refl (f : nat → Z) (l : list nat) :
  forallb (λ j, f j =? f j) l = true.
Proof. apply forallb_forall. intros j _. apply Z.eqb_refl. Qed.

Lemma positive_case_passes (e : SelfTest.TestCase) :
  is_bytes16 (SelfTest.bytes e) →
  (String.length (SelfTest.text e) ≤ 25)%nat →
  SelfTest.positive_case (encode cb DIGITS) (decode cb) e = Some tt
  ↔ encode cb DIGITS (SelfTest.bytes e) = Some (SelfTest.text e).
Proof.
  intros [Hlen Hb] Ht. unfold SelfTest.positive_case.
  rewrite (encode_spec cb DIGITS Hcb) by done. split.
  - intros H. destruct (forallb _ (seq 0 26)) eqn:Hall; [|discriminate H].
    f_equal. symmetry. by apply text_is_encoded.
  - intros H. injection H as <-.
    rewrite forallb_eqb_refl.
    rewrite (decode_encoded cb DIGITS in_case Hcb Hdigits) by done.
    change (0 =? 0) with true. cbn [andb].
    by rewrite forallb_eqb_refl.
Qed.

Lemma negative_cases_pass (texts : list string) (out : list Z) :
  length out = 16%nat →
  SelfTest.negative_cases (decode cb) texts out = Some tt
  ↔ Forall (λ t, acceptable t = false) texts.
Proof.
  revert out. induction texts as [|t texts IH]; intros out Hout.
  - split; [constructor|done].
  - cbn [SelfTest.negative_cases].
    destruct (decodes_iff_acceptable_with cb t out Hcb Hout) as [H1 H0].
    destruct (acceptable t) eqn:Hacc.
    + rewrite (H1 eq_refl). change (0 =? 0) with true. cbv iota.
      split; [discriminate|]. intros HF. apply Forall_cons_1 in HF as [HF _].
      congruence.
    + destruct (H0 eq_refl) as [o Ho]. rewrite Ho.
      change (-1 =? 0) with false. cbv iota.
      rewrite (IH o (decode_length cb t out _ _ Hcb Hout Ho)).
      split; [intros HF; by constructor|].
      intros HF. by apply Forall_cons_1 in HF as [_ HF].
Qed.

End SelfTestProps.

(** X16. The body of the loop of [test_positive_cases] passes on an entry
    of 16 bytes and a text of at most 25 characters exactly when [encode]
    of the bytes prints that text; in either file. *)
Theorem test_positive_case_exact (e : SelfTest.TestCase) :
  is_bytes16 (SelfTest.bytes e) →
  (String.length (SelfTest.text e) ≤ 25)%nat →
  (SelfTest.positive_case Naive.encode Naive.decode e = Some tt
   ↔ Naive.encode (SelfTest.bytes e) = Some (SelfTest.text e))
  ∧ (SelfTest.positive_case Refined.encode Refined.decode e = Some tt
     ↔ Refined.encode (SelfTest.bytes e) = Some (SelfTest.text e)).
Proof.
  intros Hb Ht. split.
  - by apply (positive_case_passes _ _ _ naive_conversion_contract
                naive_digits_ok).
  - by apply (positive_case_passes _ _ _ refined_conversion_contract
                refined_digits_ok).
Qed.

Lemma test_positive_case_exact_witness :
  is_bytes16 sample_bytes
  ∧ (String.length "0372hg16csmsm50l8dikcvukc" ≤ 25)%nat
  ∧ SelfTest.positive_case Refined.encode Refined.decode
      {| SelfTest.bytes := sample_bytes;
         SelfTest.text := "0372hg16csmsm50l8dikcvukc" |} = Some tt.
Proof.
  assert (H : is_bytes16 sample_bytes).
  { split; [reflexivity|]. repeat constructor; unfold is_digit; lia. }
  assert (Hl : (String.length "0372hg16csmsm50l8dikcvukc" ≤ 25)%nat)
    by (simpl; lia).
  split; [exact H|]. split; [exact Hl|].
  destruct (test_positive_case_exact
              {| SelfTest.bytes := sample_bytes;
                 SelfTest.text := "0372hg16csmsm50l8dikcvukc" |} H Hl)
    as [_ [_ Hr]].
  apply Hr. vm_compute. reflexivity.
Defined.

(** X17. The statements of [test_negative_cases] pass on a list of texts
    exactly when [decode] has to reject each of them: none is 25
    characters of the alphabet, ended there, with a value of at most
    [2^128 - 1]; in either file. *)
Theorem test_negative_cases_exact (texts : list string) (out : list Z) :
  length out = 16%nat →
  (SelfTest.negative_cases Naive.decode texts out = Some tt
   ↔ Forall (λ t, acceptable t = false) texts)
  ∧ (SelfTest.negative_cases Refined.decode texts out = Some tt
     ↔ Forall (λ t, acceptable t = false) texts).
Proof.
  intros Hout. split.
  - by apply negative_cases_pass; [apply naive_conversion_contract|].
  - by apply negative_cases_pass; [apply refined_conversion_contract|].
Qed.

Lemma test_negative_cases_exact_witness :
  length (replicate 16 0) = 16%nat
  ∧ SelfTest.negative_cases Refined.decode
      [ "0"; "f5lxx1zz5pnorynqglhzmsp34" ]%string (replicate 16 0)
    = Some tt.
Proof.
  split; [reflexivity|].
  destruct (test_negative_cases_exact
              [ "0"; "f5lxx1zz5pnorynqglhzmsp34" ]%string (replicate 16 0)
              eq_refl) as [_ [_ Hr]].
  apply Hr. repeat constructor; vm_compute; reflexivity.
Defined.

(** X18. In either file [main] runs both tests without a failed assertion
    and returns 0. *)
Theorem main_returns_zero :
  NaiveTest.main = Some 0 ∧ RefinedTest.main = Some 0.
Proof. split; vm_compute; reflexivity. Qed.

(** ** Texts of the same bytes *)

(** X19. Two 25-character texts that [decode] turns into the same bytes
    differ in letter case only: they have the same lower-case form; in
    either file. *)
Theorem decode_same_bytes_same_text (t1 t2 : string) (out1 out2 b : list Z) :
  String.length t1 = 25%nat → String.length t2 = 25%nat →
  length out1 = 16%nat → length out2 = 16%nat →
  (Naive.decode t1 out1 = Some (0, b) → Naive.decode t2 out2 = Some (0, b) →
   map_string to_lower t1 = map_string to_lower t2)
  ∧ (Refined.decode t1 out1 = Some (0, b) →
     Refined.decode t2 out2 = Some (0, b) →
     map_string to_lower t1 = map_string to_lower t2).
Proof.
  intros Hl1 Hl2 Ho1 Ho2.
  assert (Hgen : ∀ cb, conversion_contract cb →
             decode cb t1 out1 = Some (0, b) →
             decode cb t2 out2 = Some (0, b) →
             map_string to_lower t1 = map_string to_lower t2).
  { intros cb Hcb H1 H2.
    pose proof (encode_decoded cb Refined.DIGITS to_lower t1 out1 b Hcb
                  canonical_char_lower Hl1 Ho1 H1) as E1.
    pose proof (encode_decoded cb Refined.DIGITS to_lower t2 out2 b Hcb
                  canonical_char_lower Hl2 Ho2 H2) as E2.
    rewrite E1 in E2. by injection E2. }
  split; apply Hgen;
    [apply naive_conversion_contract|apply refined_conversion_contract].
Qed.

Lemma decode_same_bytes_same_text_witness :
  String.length "0372hg16csmsm50l8dikcvukc" = 25%nat
  ∧ String.length "0372Hg16CSMsm50l8dIKCvukC" = 25%nat
  ∧ length (replicate 16 7) = 16%nat
  ∧ map_string to_lower "0372hg16csmsm50l8dikcvukc"
    = map_string to_lower "0372Hg16CSMsm50l8dIKCvukC".
Proof.
  split; [reflexivity|]. split; [reflexivity|]. split; [reflexivity|].
  destruct (decode_same_bytes_same_text "0372hg16csmsm50l8dikcvukc"
              "0372Hg16CSMsm50l8dIKCvukC" (replicate 16 7) (replicate 16 7)
              sample_bytes eq_refl eq_refl eq_refl eq_refl) as [_ H].
  apply H; vm_compute; reflexivity.
Defined.

(** ** The two builds of the revised file *)

(** X20. Building the revised file with [USE_NAIVE_CODE] changes nothing
    that a caller of the codec can see: [encode] prints the same text for
    every 16-byte input, and [decode] returns the same status for every
    text and, on success, the same bytes. *)
Theorem naive_build_same_codec (b : list Z) (text : string) (out : list Z) :
  is_bytes16 b → length out = 16%nat →
  RefinedNaiveBuild.encode b = Refined.encode b
  ∧ ∃ err o1 o2,
      RefinedNaiveBuild.decode text out = Some (err, o1)
      ∧ Refined.decode text out = Some (err, o2)
      ∧ (err = 0 → o1 = o2).
Proof.
  intros [Hlen Hb] Hout. split.
  - unfold RefinedNaiveBuild.encode, Refined.encode,
      RefinedNaiveBuild.convert_base, RefinedNaiveBuild.DIGITS.
    rewrite (encode_spec _ _ naive_conversion_contract) by done.
    by rewrite (encode_spec _ _ refined_conversion_contract).
  - destruct (decodes_iff_acceptable_with Naive.convert_base text out
                naive_conversion_contract Hout) as [Hn1 Hn0].
    destruct (decodes_iff_acceptable_with Refined.convert_base text out
                refined_conversion_contract Hout) as [Hr1 Hr0].
    destruct (acceptable text) eqn:Hacc.
    + eexists 0, _, _. split; [by apply Hn1|]. split; [by apply Hr1|]. done.
    + destruct (Hn0 eq_refl) as [o1 H1]. destruct (Hr0 eq_refl) as [o2 H2].
      exists (-1), o1, o2. split; [exact H1|]. split; [exact H2|]. lia.
Qed.

Lemma naive_build_same_codec_witness :
  is_bytes16 max_bytes ∧ length (replicate 16 7) = 16%nat
  ∧ RefinedNaiveBuild.encode max_bytes = Refined.encode max_bytes.
Proof.
  assert (H : is_bytes16 max_bytes).
  { split; [reflexivity|]. repeat constructor; unfold is_digit; lia. }
  split; [exact H|]. split; [reflexivity|].
  apply (naive_build_same_codec max_bytes "f5lxx1zz5pnorynqglhzmsp33"
           (replicate 16 7) H eq_refl).
Defined.
